(** * QCSubmit datasets: a shallow embedding of [qcsubmit/datasets.py]

    The development follows the Python module top to bottom:
    [ComponentResult] (the de-duplicating molecule container), [DatasetEntry],
    [FilterEntry], [BasicDataset] with its [__add__], [add_molecule],
    [filter_molecules] and [n_records], and the two subclasses
    [OptimizationDataset] and [TorsiondriveDataset] with their own [__add__].

    Python objects that are shared and mutated in place (the dataset entries)
    live in an explicit store; everything the module imports from other
    packages (the OpenFF toolkit, QCElemental, the validators, the
    [Constraints] model, [IndexCleaner]) is an interface, [Toolkit]. *)

From stdpp Require Import gmap strings list fin_maps pretty.
From Corelib Require Import PrimFloat FloatAxioms.

Set Default Proof Using "Type".

(** ** Exceptions and results *)

(** The exception classes that the modelled code raises or lets through. *)
Inductive exn : Type :=
  | AssertionError
  | IndexError
  | KeyError
  | TypeError
  | ValidationError          (* qcel.exceptions.ValidationError *)
  | ConstraintError
  | DihedralConnectionError
  | DatasetCombinationError
  | OtherError (name : string).

(** A computation that returns a value or raises. *)
Inductive result (A : Type) : Type :=
  | Ok (a : A)
  | Raise (e : exn).
Arguments Ok {A} a.
Arguments Raise {A} e.

#[global] Instance result_ret : MRet result := λ A a, Ok a.
#[global] Instance result_bind : MBind result := λ A B f m,
  match m with
  | Ok a => f a
  | Raise e => Raise e
  end.

(** A check that passes ([None]) or raises. *)
Definition check (c : option exn) : result unit :=
  match c with
  | None => Ok ()
  | Some e => Raise e
  end.

(** A loop that threads an accumulator and stops at the first exception. *)
Fixpoint result_foldl {A B} (f : A → B → result A) (a : A) (l : list B) : result A :=
  match l with
  | [] => Ok a
  | x :: l' => a' ← f a x; result_foldl f a' l'
  end.

Fixpoint result_mapM {A B} (f : A → result B) (l : list A) : result (list B) :=
  match l with
  | [] => Ok []
  | x :: l' => y ← f x; ys ← result_mapM f l'; Ok (y :: ys)
  end.

(** ** Insertion-ordered dictionaries

    A Python [dict] keeps its keys in insertion order; [d[k] = v] replaces the
    value of an existing key in place and appends a new key at the end. *)
Section odict.
Context {V : Type}.

Fixpoint odict_get (k : string) (d : list (string * V)) : option V :=
  match d with
  | [] => None
  | (k', v) :: d' => if decide (k' = k) then Some v else odict_get k d'
  end.

Fixpoint odict_set (k : string) (v : V) (d : list (string * V)) : list (string * V) :=
  match d with
  | [] => [(k, v)]
  | (k', v') :: d' =>
      if decide (k' = k) then (k, v) :: d' else (k', v') :: odict_set k v d'
  end.

Definition odict_keys (d : list (string * V)) : list string := fst <$> d.
Definition odict_values (d : list (string * V)) : list V := snd <$> d.
End odict.

(** ** Conformers of an [off.Molecule]

    A conformer is an (n_atoms, 3) array of floats (in angstrom); [tolist()]
    turns it into a list of rows, and Python compares two such lists
    elementwise with the IEEE equality of floats. *)
Abbreviation coord := (float * float * float)%type.
Abbreviation conformer := (list coord).

Definition coord_eqb (a b : coord) : bool :=
  let '(x1, y1, z1) := a in
  let '(x2, y2, z2) := b in
  PrimFloat.eqb x1 x2 && PrimFloat.eqb y1 y2 && PrimFloat.eqb z1 z2.

Fixpoint conformer_eqb (a b : conformer) : bool :=
  match a, b with
  | [], [] => true
  | x :: a', y :: b' => coord_eqb x y && conformer_eqb a' b'
  | _, _ => false
  end.

(** An atom map as returned by [Molecule.are_isomorphic(..., return_atom_map=True)]:
    a dictionary defined on every atom index of the first molecule. *)
Definition AtomMap : Type := nat → nat.

(** ** The imported interface

    Everything [datasets.py] takes from other packages.  A [Topology] is a
    molecular graph with its atoms in stored order: what
    [Molecule.from_mapped_smiles] rebuilds from an entry's attributes. *)
Abbreviation torsion := (nat * nat * nat * nat)%type.

Class Toolkit : Type := {
  (* openforcefield.topology.Molecule *)
  Topology : Type;
  n_atoms : Topology → nat;
  to_inchikey : Topology → string;
  to_smiles : Topology → string;
  are_isomorphic : Topology → Topology → option AtomMap;
  generate_conformers : Topology → list conformer;
  (* common_structures.TorsionIndexer *)
  TorsionIndexer : Type;
  TorsionIndexer_new : TorsionIndexer;
  TorsionIndexer_update : TorsionIndexer → TorsionIndexer → AtomMap → TorsionIndexer;
  (* qcelemental.models.Molecule *)
  QCMol : Type;
  Extras : Type;
  qcmol_eqb : QCMol → QCMol → bool;
  qc_symbols : QCMol → list string;
  qc_extras : QCMol → Extras;
  to_qcschema : Topology → conformer → Extras → result QCMol;
  remap_to_qcschema : Topology → AtomMap → QCMol → Extras → QCMol;
  stamp_cmiles : Topology → QCMol → QCMol;
  (* constraints.Constraints *)
  Constraints : Type;
  ConstraintsDict : Type;
  CType : Type;
  CValue : Type;
  Constraints_new : Constraints;
  Constraints_parse : ConstraintsDict → result Constraints;
  Constraints_eqb : Constraints → Constraints → bool;
  Constraints_freeze : Constraints → list (CType * list nat);
  Constraints_set : Constraints → list (CType * list nat * CValue);
  add_freeze_constraint : CType → list nat → Constraints → result Constraints;
  add_set_constraint : CType → list nat → CValue → Constraints → result Constraints;
  (* validators *)
  cmiles_validator : Topology → option exn;
  check_valence_connectivity : QCMol → option exn;
  check_constraints : Constraints → Topology → option exn;
  check_linear_torsions : torsion → Topology → option exn;
  check_torsion_connection : torsion → Topology → bool;
  check_improper_connection : torsion → Topology → bool;
  (* common_structures.IndexCleaner *)
  _clean_index : string → string * nat;
}.

Section model.
Context `{!Toolkit}.

(** *** [off.Molecule] as [ComponentResult] sees it *)
Record Molecule : Type := {
  topology : Topology;
  conformers : list conformer;
  properties_dihedrals : option TorsionIndexer;   (* properties.get("dihedrals") *)
}.

(** ** class ComponentResult *)
Record ComponentResult : Type := {
  _molecules : gmap string Molecule;
  _filtered : gmap string Molecule;
}.

Definition ComponentResult_n_molecules (self : ComponentResult) : nat :=
  size (_molecules self).

Definition ComponentResult_n_conformers (self : ComponentResult) : nat :=
  map_fold (λ _ molecule acc, length (conformers molecule) + acc) 0 (_molecules self).

Definition ComponentResult_n_filtered (self : ComponentResult) : nat :=
  size (_filtered self).

(** [new_conformer[i] = conformer[mapping[i]]] for [i in range(n_atoms)];
    a row index outside the conformer raises. *)
Definition remap_conformer (n : nat) (mapping : AtomMap) (c : conformer)
    : option conformer :=
  mapM (λ i, c !! mapping i) (seq 0 n).

(** The [for old_conformer in ...: if old == new: break / else: add_conformer]. *)
Definition conformer_present (new_conf : conformer) (confs : list conformer) : bool :=
  existsb (λ old_conformer, conformer_eqb old_conformer new_conf) confs.

Definition add_conformer_if_new (confs : list conformer) (new_conf : conformer)
    : list conformer :=
  if conformer_present new_conf confs then confs else confs ++ [new_conf].

(** The loop [for conformer in molecule.conformers]; conformers appended
    before an exception stay appended. *)
Fixpoint transfer_conformers (n : nat) (mapping : AtomMap)
    (incoming : list conformer) (kept : list conformer)
    : list conformer * option exn :=
  match incoming with
  | [] => (kept, None)
  | c :: rest =>
      match remap_conformer n mapping c with
      | None => (kept, Some IndexError)
      | Some new_conf =>
          transfer_conformers n mapping rest (add_conformer_if_new kept new_conf)
      end
  end.

(** What the transfer is expected to append: the candidates, in order, that
    match no conformer of [present] and no earlier candidate that was itself
    appended. *)
Fixpoint genuinely_new (present : list conformer) (candidates : list conformer)
    : list conformer :=
  match candidates with
  | [] => []
  | c :: cs =>
      if conformer_present c present then genuinely_new present cs
      else c :: genuinely_new (present ++ [c]) cs
  end.

(** The conformer as the specification wants it transferred: in the kept
    molecule's atom order.  The atom map sends an atom of the incoming
    molecule to its atom in the kept one, so row [mapping i] of the aligned
    conformer is row [i] of the incoming one. *)
Definition aligned_conformer (n : nat) (mapping : AtomMap) (c : conformer)
    : option conformer :=
  mapM (λ j, list_find (λ i, mapping i = j) (seq 0 n) ≫= λ '(_, i), c !! i) (seq 0 n).

(** [ComponentResult.add_molecule]: the updated container and the exception
    raised, if any.  The argument is an object distinct from the one kept. *)
Definition ComponentResult_add_molecule (molecule : Molecule) (self : ComponentResult)
    : ComponentResult * option exn :=
  let molecule_hash := to_inchikey (topology molecule) in
  match _molecules self !! molecule_hash with
  | Some current =>
      match are_isomorphic (topology molecule) (topology current) with
      | None => (self, Some AssertionError)
      | Some mapping =>
          let current :=
            match properties_dihedrals molecule with
            | Some indexer =>
                let current_indexer :=
                  default TorsionIndexer_new (properties_dihedrals current) in
                {| topology := topology current;
                   conformers := conformers current;
                   properties_dihedrals :=
                     Some (TorsionIndexer_update current_indexer indexer mapping) |}
            | None => current
            end in
          let '(confs, raised) :=
            transfer_conformers (n_atoms (topology molecule)) mapping
              (conformers molecule) (conformers current) in
          ({| _molecules :=
                <[molecule_hash :=
                    {| topology := topology current;
                       conformers := confs;
                       properties_dihedrals := properties_dihedrals current |}]>
                  (_molecules self);
              _filtered := _filtered self |},
           raised)
      end
  | None =>
      ({| _molecules := <[molecule_hash := molecule]> (_molecules self);
          _filtered := _filtered self |}, None)
  end.

(** [molecule not in self._filtered] looks a [Molecule] object up among the
    keys of the dictionary, which are InChIKey strings: no key is ever equal
    to it, so the test holds and the assignment always runs. *)
Definition molecule_in_keys (molecule : Molecule) (d : gmap string Molecule) : bool :=
  false.

(** [ComponentResult.filter_molecule] *)
Definition ComponentResult_filter_molecule (molecule : Molecule) (self : ComponentResult)
    : ComponentResult :=
  let molecule_hash := to_inchikey (topology molecule) in
  {| _molecules := delete molecule_hash (_molecules self);
     _filtered :=
       if negb (molecule_in_keys molecule (_filtered self))
       then <[molecule_hash := molecule]> (_filtered self)
       else _filtered self |}.

(** The loop of [ComponentResult.__init__]:
    [for molecule in molecules: self.add_molecule(molecule)]; an exception
    ends the loop with the container as it is by then. *)
Fixpoint add_molecules (molecules : list Molecule) (self : ComponentResult)
    : ComponentResult * option exn :=
  match molecules with
  | [] => (self, None)
  | molecule :: rest =>
      match ComponentResult_add_molecule molecule self with
      | (self', None) => add_molecules rest self'
      | (self', Some e) => (self', Some e)
      end
  end.

(** [ComponentResult.__init__] given [molecules] (a list, or [None]); reading
    molecules from [input_file] or [input_directory] is left to the caller. *)
Definition ComponentResult_init (molecules : option (list Molecule))
    : ComponentResult * option exn :=
  let self := {| _molecules := ∅; _filtered := ∅ |} in
  match molecules with
  | Some molecules => add_molecules molecules self
  | None => (self, None)
  end.


(** ** class DatasetEntry *)
Record DatasetEntry : Type := {
  index : string;
  initial_molecules : list QCMol;
  attributes : Topology;          (* the mapped SMILES that [off_molecule] is rebuilt from *)
  dihedrals : option (list torsion);
  constraints : Constraints;
}.

Definition set_index (i : string) (e : DatasetEntry) : DatasetEntry :=
  {| index := i; initial_molecules := initial_molecules e; attributes := attributes e;
     dihedrals := dihedrals e; constraints := constraints e |}.

Definition set_initial_molecules (ms : list QCMol) (e : DatasetEntry) : DatasetEntry :=
  {| index := index e; initial_molecules := ms; attributes := attributes e;
     dihedrals := dihedrals e; constraints := constraints e |}.

(** The torsion checks of [DatasetEntry.__init__]: linearity first, then a
    proper torsion, then an improper one. *)
Definition check_dihedral (molecule : Topology) (t : torsion) : result unit :=
  _ ← check (check_linear_torsions t molecule);
  if check_torsion_connection t molecule then Ok ()
  else if check_improper_connection t molecule then Ok ()
  else Raise DihedralConnectionError.

(** A torsion that [DatasetEntry.__init__] does not let through: a linear
    one, or one that is neither a proper nor an improper torsion of the
    molecule. *)
Definition torsion_rejected (molecule : Topology) (t : torsion) : bool :=
  bool_decide (is_Some (check_linear_torsions t molecule))
  || negb (check_torsion_connection t molecule || check_improper_connection t molecule).

(** [DatasetEntry.__init__(off_molecule=molecule, index=..., attributes=...,
    extras=..., keywords=..., **kwargs)]; [keywords_constraints] is
    [keywords["constraints"]] when that key is present. *)
Definition DatasetEntry_init (off_molecule : Molecule) (index : string)
    (attributes : Topology) (extras : Extras)
    (keywords_constraints : option ConstraintsDict)
    (dihedrals : option (list torsion)) : result DatasetEntry :=
  constraints ← match keywords_constraints with
                | Some constraint_dict => Constraints_parse constraint_dict
                | None => Ok Constraints_new
                end;
  let confs := match conformers off_molecule with
               | [] => generate_conformers (topology off_molecule)
               | cs => cs
               end in
  schema_mols ← result_mapM (λ c, to_qcschema (topology off_molecule) c extras) confs;
  _ ← check (cmiles_validator attributes);
  _ ← result_mapM (λ m, check (check_valence_connectivity m)) schema_mols;
  _ ← check (check_constraints constraints attributes);
  _ ← match dihedrals with
      | Some ds => result_mapM (check_dihedral (topology off_molecule)) ds
      | None => Ok []
      end;
  Ok {| index := index;
        initial_molecules := stamp_cmiles attributes <$> schema_mols;
        attributes := attributes;
        dihedrals := dihedrals;
        constraints := constraints |}.

(** ** class FilterEntry *)
Record FilterEntry : Type := {
  component_name : string;
  component_description : list (string * string);
  component_provenance : list (string * string);
  molecules : list string;
}.

(** ** The store of dataset entries

    A dataset maps indices to [DatasetEntry] objects; the objects are shared
    between datasets and mutated in place, so dictionaries hold references. *)
Abbreviation loc := nat.
Abbreviation heap := (list DatasetEntry).

(** A statement: it runs in a store, may change it, and returns or raises. *)
Definition M (A : Type) : Type := heap → heap * result A.

#[global] Instance M_ret : MRet M := λ A a h, (h, Ok a).
#[global] Instance M_bind : MBind M := λ A B f m h,
  match m h with
  | (h', Ok a) => f a h'
  | (h', Raise e) => (h', Raise e)
  end.

Definition raise {A} (e : exn) : M A := λ h, (h, Raise e).
Definition lift {A} (f : heap → result A) : M A := λ h, (h, f h).

Definition load_at (h : heap) (r : loc) : result DatasetEntry :=
  match h !! r with
  | Some e => Ok e
  | None => Raise (OtherError "stale reference")
  end.

Definition load (r : loc) : M DatasetEntry := lift (λ h, load_at h r).
Definition store (r : loc) (e : DatasetEntry) : M unit := λ h, (<[r := e]> h, Ok ()).
Definition alloc (e : DatasetEntry) : M loc := λ h, (h ++ [e], Ok (length h)).

Fixpoint M_foldl {A B} (f : A → B → M A) (a : A) (l : list B) : M A :=
  match l with
  | [] => mret a
  | x :: l' => a' ← f a x; M_foldl f a' l'
  end.

(** ** class BasicDataset (and its subclasses) *)
Inductive DatasetClass : Type :=
  | BasicDataset
  | OptimizationDataset
  | TorsiondriveDataset.

Record Dataset : Type := {
  dataset_class : DatasetClass;
  dataset_type : string;
  metadata_elements : gset string;                           (* metadata.elements *)
  provenance : list (string * string);
  dataset : list (string * loc);                    (* Dict[str, DatasetEntry] *)
  filtered_molecules : list (string * FilterEntry);
}.

Definition set_dataset (d : list (string * loc)) (self : Dataset) : Dataset :=
  {| dataset_class := dataset_class self; dataset_type := dataset_type self;
     metadata_elements := metadata_elements self; provenance := provenance self;
     dataset := d; filtered_molecules := filtered_molecules self |}.

Definition set_elements (els : gset string) (self : Dataset) : Dataset :=
  {| dataset_class := dataset_class self; dataset_type := dataset_type self;
     metadata_elements := els; provenance := provenance self;
     dataset := dataset self; filtered_molecules := filtered_molecules self |}.

Definition set_filtered_molecules (f : list (string * FilterEntry)) (self : Dataset)
    : Dataset :=
  {| dataset_class := dataset_class self; dataset_type := dataset_type self;
     metadata_elements := metadata_elements self; provenance := provenance self;
     dataset := dataset self; filtered_molecules := f |}.

(** [copy.deepcopy(self)]: every entry object is copied once, also when the
    dictionary holds it under several keys (the memo of [deepcopy]). *)
Fixpoint deepcopy_entries (memo : list (loc * loc)) (d : list (string * loc))
    : M (list (string * loc)) :=
  match d with
  | [] => mret []
  | (k, r) :: d' =>
      match list_find (λ m, m.1 = r) memo with
      | Some (_, (_, r')) =>
          rest ← deepcopy_entries memo d'; mret ((k, r') :: rest)
      | None =>
          e ← load r;
          r' ← alloc e;
          rest ← deepcopy_entries ((r, r') :: memo) d';
          mret ((k, r') :: rest)
      end
  end.

(** [BasicDataset.get_molecule_entry(molecule)]: the [index] attribute of every
    entry whose [off_molecule] equals [molecule], in dictionary order;
    [Molecule.__eq__] is the isomorphism test. *)
Definition get_molecule_entry_at (h : heap) (d : list (string * loc))
    (molecule : Topology) : result (list string) :=
  entries ← result_mapM (load_at h) (odict_values d);
  Ok (index <$> filter (λ entry, is_Some (are_isomorphic molecule (attributes entry)))
                  (entries : list DatasetEntry)).

Definition get_molecule_entry (d : list (string * loc)) (molecule : Topology)
    : M (list string) :=
  lift (λ h, get_molecule_entry_at h d molecule).

(** [d[k]] *)
Definition getitem (k : string) (d : list (string * loc)) : M loc :=
  match odict_get k d with
  | Some r => mret r
  | None => raise KeyError
  end.

(** The conformer transfer shared by the three [__add__] methods:
[[
    mapped_mol = off_mol.remap(mapping_dict=atom_map, current_to_new=True)
    for i in range(mapped_mol.n_conformers):
        mapped_schema = mapped_mol.to_qcschema(
            conformer=i, extras=current_entry.initial_molecules[0].extras)
        if mapped_schema not in current_entry.initial_molecules:
            current_entry.initial_molecules.append(mapped_schema)
]]
    [geometries] are the incoming entry's [initial_molecules], read when its
    [off_molecule] was built. *)
Definition transfer_one (molecule : Topology) (atom_map : AtomMap) (current : loc)
    (_ : unit) (geometry : QCMol) : M unit :=
  current_entry ← load current;
  match initial_molecules current_entry with
  | [] => raise IndexError
  | first :: _ =>
      let mapped_schema := remap_to_qcschema molecule atom_map geometry (qc_extras first) in
      if existsb (λ m, qcmol_eqb m mapped_schema) (initial_molecules current_entry)
      then mret ()
      else store current
             (set_initial_molecules (initial_molecules current_entry ++ [mapped_schema])
                current_entry)
  end.

Definition transfer_geometries (molecule : Topology) (atom_map : option AtomMap)
    (geometries : list QCMol) (current : loc) : M unit :=
  match atom_map with
  | None => raise TypeError
  | Some atom_map => M_foldl (transfer_one molecule atom_map current) () geometries
  end.


(** [BasicDataset.__add__], the body of [for index, entry in other.dataset.items()]. *)
Definition BasicDataset_add_step (new_dataset : list (string * loc))
    (item : string * loc) : M (list (string * loc)) :=
  let '(index, r) := item in
  entry ← load r;
  entry_ids ← get_molecule_entry new_dataset (attributes entry);
  match entry_ids with
  | [] => mret (odict_set index r new_dataset)
  | mol_id :: _ =>
      current ← getitem mol_id new_dataset;
      current_entry ← load current;
      let atom_map := are_isomorphic (attributes entry) (attributes current_entry) in
      _ ← transfer_geometries (attributes entry) atom_map (initial_molecules entry) current;
      mret new_dataset
  end.

(** Modelled from the spec: [utils.remap_list] is not among the sources; the
    spec has index remapping apply the permutation to the indices
    elementwise.  Without an atom map there is nothing to subscript. *)
Definition remap_list (target_list : list nat) (mapping : option AtomMap)
    : result (list nat) :=
  match target_list, mapping with
  | [], _ => Ok []
  | _, Some m => Ok (m <$> target_list)
  | _, None => Raise TypeError
  end.

(** The incoming entry's constraints rebuilt in the frame of the current entry:
[[
    entry_constraints = Constraints()
    for constraint in entry.constraints.freeze:
        entry_constraints.add_freeze_constraint(
            constraint.type, remap_list(constraint.indices, atom_map))
    for constraint in entry.constraints.set:
        entry_constraints.add_set_constraint(
            constraint.type, remap_list(constraint.indices, atom_map), constraint.value)
]] *)
Definition remap_constraints (cs : Constraints) (atom_map : option AtomMap)
    : result Constraints :=
  entry_constraints ←
    result_foldl (λ acc '(type, indices),
                    indices' ← remap_list indices atom_map;
                    add_freeze_constraint type indices' acc)
      Constraints_new (Constraints_freeze cs);
  result_foldl (λ acc '(type, indices, value),
                  indices' ← remap_list indices atom_map;
                  add_set_constraint type indices' value acc)
    entry_constraints (Constraints_set cs).

(** [OptimizationDataset.__add__], the loop [for mol_id in entry_ids] with its
    [break]: [None] when the loop broke out after a transfer, [Some records]
    when it ran to its [else]. *)
Fixpoint OptimizationDataset_scan (entry : DatasetEntry)
    (new_dataset : list (string * loc)) (entry_ids : list string) (records : nat)
    : M (option nat) :=
  match entry_ids with
  | [] => mret (Some records)
  | mol_id :: rest =>
      current ← getitem mol_id new_dataset;
      current_entry ← load current;
      let records := records + length (initial_molecules current_entry) in
      let atom_map := are_isomorphic (attributes entry) (attributes current_entry) in
      entry_constraints ← lift (λ _, remap_constraints (constraints entry) atom_map);
      if Constraints_eqb (constraints current_entry) entry_constraints
      then
        _ ← transfer_geometries (attributes entry) atom_map (initial_molecules entry) current;
        mret None
      else OptimizationDataset_scan entry new_dataset rest records
  end.

(** [OptimizationDataset.__add__], the body of [for entry in other.dataset.values()]. *)
Definition OptimizationDataset_add_step (new_dataset : list (string * loc))
    (item : string * loc) : M (list (string * loc)) :=
  let r := item.2 in
  entry ← load r;
  entry_ids ← get_molecule_entry new_dataset (attributes entry);
  match entry_ids with
  | [] => mret (odict_set (index entry) r new_dataset)
  | _ =>
      finished ← OptimizationDataset_scan entry new_dataset entry_ids 0;
      match finished with
      | None => mret new_dataset
      | Some records =>
          let '(core, tag) := _clean_index (index entry) in
          let new_index := core +:+ "-" +:+ pretty (tag + records) in
          entry ← load r;
          _ ← store r (set_index new_index entry);
          mret (odict_set new_index r new_dataset)
      end
  end.

(** The central bonds of an entry's dihedrals, forwards and backwards:
[[
    current_dihedrals = set([(dihedral[1:3]) for dihedral in current_entry.dihedrals])
    for dihedral in current_entry.dihedrals:
        current_dihedrals.add((dihedral[1:3]))
        current_dihedrals.add((dihedral[2:0:-1]))
]] *)
Definition central_bonds (ds : list torsion) : gset (nat * nat) :=
  foldl (λ acc '(_, b, c, _), acc ∪ {[ (b, c) ]} ∪ {[ (c, b) ]})
    (list_to_set ((λ '(_, b, c, _), (b, c)) <$> ds)) ds.

(** [[
    other_dihedrals = set()
    for dihedral in entry.dihedrals:
        other_dihedrals.add(tuple(atom_map[i] for i in dihedral[1:3]))
        other_dihedrals.add(tuple(atom_map[i] for i in dihedral[2:0:-1]))
]] *)
Definition mapped_central_bonds (atom_map : option AtomMap) (ds : list torsion)
    : result (gset (nat * nat)) :=
  result_foldl (λ acc '(_, b, c, _),
                  match atom_map with
                  | Some m => Ok (acc ∪ {[ (m b, m c) ]} ∪ {[ (m c, m b) ]})
                  | None => Raise TypeError
                  end)
    ∅ ds.

(** Iterating [entry.dihedrals] when it is [None] raises. *)
Definition iter_dihedrals (e : DatasetEntry) : result (list torsion) :=
  match dihedrals e with
  | Some ds => Ok ds
  | None => Raise TypeError
  end.

(** [TorsiondriveDataset.__add__], the loop [for mol_id in entry_ids]: [true]
    when it broke out after a transfer, [false] when it ran to its [else]. *)
Fixpoint TorsiondriveDataset_scan (entry : DatasetEntry)
    (new_dataset : list (string * loc)) (entry_ids : list string) : M bool :=
  match entry_ids with
  | [] => mret false
  | mol_id :: rest =>
      current ← getitem mol_id new_dataset;
      current_entry ← load current;
      let atom_map := are_isomorphic (attributes entry) (attributes current_entry) in
      current_ds ← lift (λ _, iter_dihedrals current_entry);
      let current_dihedrals := central_bonds current_ds in
      entry_ds ← lift (λ _, iter_dihedrals entry);
      other_dihedrals ← lift (λ _, mapped_central_bonds atom_map entry_ds);
      let difference := current_dihedrals ∖ other_dihedrals in
      if decide (difference = ∅)
      then
        _ ← transfer_geometries (attributes entry) atom_map (initial_molecules entry) current;
        mret true
      else TorsiondriveDataset_scan entry new_dataset rest
  end.

(** [TorsiondriveDataset.__add__], the body of [for index, entry in other.dataset.items()]. *)
Definition TorsiondriveDataset_add_step (new_dataset : list (string * loc))
    (item : string * loc) : M (list (string * loc)) :=
  let '(index, r) := item in
  entry ← load r;
  entry_ids ← get_molecule_entry new_dataset (attributes entry);
  fused ← TorsiondriveDataset_scan entry new_dataset entry_ids;
  if (fused : bool) then mret new_dataset
  else mret (odict_set index r new_dataset).

(** The frame the three [__add__] methods share: the type check, the deep copy
    of [self], the union of the element sets and the loop over [other]. *)
Definition add_with (step : list (string * loc) → string * loc → M (list (string * loc)))
    (self other : Dataset) : M Dataset :=
  if decide (dataset_type self ≠ dataset_type other)
  then raise DatasetCombinationError
  else
    entries ← deepcopy_entries [] (dataset self);
    let new_dataset := set_elements (metadata_elements self ∪ metadata_elements other) self in
    entries ← M_foldl step entries (dataset other);
    mret (set_dataset entries new_dataset).

Definition BasicDataset_add : Dataset → Dataset → M Dataset :=
  add_with BasicDataset_add_step.
Definition OptimizationDataset_add : Dataset → Dataset → M Dataset :=
  add_with OptimizationDataset_add_step.
Definition TorsiondriveDataset_add : Dataset → Dataset → M Dataset :=
  add_with TorsiondriveDataset_add_step.

(** [self + other]: Python dispatches on the class of [self]. *)
Definition add_step (c : DatasetClass)
    : list (string * loc) → string * loc → M (list (string * loc)) :=
  match c with
  | BasicDataset => BasicDataset_add_step
  | OptimizationDataset => OptimizationDataset_add_step
  | TorsiondriveDataset => TorsiondriveDataset_add_step
  end.

Definition Dataset_add (self other : Dataset) : M Dataset :=
  add_with (add_step (dataset_class self)) self other.

(** [BasicDataset.n_records], inherited by [OptimizationDataset]. *)
Definition BasicDataset_n_records (h : heap) (self : Dataset) : result nat :=
  entries ← result_mapM (load_at h) (odict_values (dataset self));
  Ok (sum_list ((λ data, length (initial_molecules data)) <$> (entries : list DatasetEntry))).

(** [TorsiondriveDataset.n_records] *)
Definition TorsiondriveDataset_n_records (self : Dataset) : nat :=
  length (dataset self).

Definition n_records (h : heap) (self : Dataset) : result nat :=
  match dataset_class self with
  | TorsiondriveDataset => Ok (TorsiondriveDataset_n_records self)
  | _ => BasicDataset_n_records h self
  end.

(** [BasicDataset.n_molecules] *)
Definition BasicDataset_n_molecules (self : Dataset) : nat := length (dataset self).

(** [BasicDataset.n_filtered] *)
Definition BasicDataset_n_filtered (self : Dataset) : nat :=
  sum_list ((λ data, length (molecules data)) <$> odict_values (filtered_molecules self)).

(** [BasicDataset.n_components] *)
Definition BasicDataset_n_components (self : Dataset) : nat :=
  length (filtered_molecules self).

(** [data.molecules.extend(filter_mols)] *)
Definition extend_molecules (filter_mols : list string) (data : FilterEntry) : FilterEntry :=
  {| component_name := component_name data;
     component_description := component_description data;
     component_provenance := component_provenance data;
     molecules := molecules data ++ filter_mols |}.

(** [BasicDataset.filter_molecules] *)
Definition filter_molecules (molecules : list Molecule) (name : string)
    (description provenance : list (string * string)) (self : Dataset) : Dataset :=
  let filter_mols := (λ molecule, to_smiles (topology molecule)) <$> molecules in
  match odict_get name (filtered_molecules self) with
  | Some data =>
      set_filtered_molecules
        (odict_set name (extend_molecules filter_mols data) (filtered_molecules self))
        self
  | None =>
      let filter_data :=
        {| component_name := name;
           component_description := description;
           component_provenance := provenance;
           molecules := filter_mols |} in
      set_filtered_molecules
        (odict_set (component_name filter_data) filter_data (filtered_molecules self))
        self
  end.

(** [BasicDataset.add_molecule]: the store and the dataset after the call, and
    the exception it raised, if any. *)
Definition add_molecule (index : string) (molecule : Molecule) (attributes : Topology)
    (extras : Extras) (keywords_constraints : option ConstraintsDict)
    (dihedrals : option (list torsion)) (self : Dataset) (h : heap)
    : heap * Dataset * option exn :=
  match DatasetEntry_init molecule index attributes extras keywords_constraints dihedrals with
  | Ok data_entry =>
      let r := length h in
      let h := h ++ [data_entry] in
      let self := set_dataset (odict_set index r (dataset self)) self in
      match initial_molecules data_entry with
      | first :: _ =>
          (h, set_elements (metadata_elements self ∪ list_to_set (qc_symbols first)) self, None)
      | [] => (h, self, Some IndexError)
      end
  | Raise ValidationError =>
      (h,
       filter_molecules [molecule] "QCSchemaIssues"
         [("component_description",
           "The molecule was removed as a valid QCSchema could not be made");
          ("component_name", "QCSchemaIssues")]
         (provenance self) self,
       None)
  | Raise e => (h, self, Some e)
  end.

(** ** The merge policies as the specification words them

    "For each entry in other: find existing entries whose molecule is
    isomorphic to the incoming one; fuse the geometries into the first one
    the policy accepts and stop; otherwise insert the incoming entry."  These
    definitions follow that description; the theorems compare them with the
    three loops above. *)

(** The dataset invariant: keys are unique and every key is the [index] of the
    entry it maps to. *)
Definition well_keyed (h : heap) (d : list (string * loc)) : Prop :=
  NoDup (odict_keys d) ∧
  Forall (λ kr, ∃ e, h !! kr.2 = Some e ∧ index e = kr.1) d.

(** An existing entry with a molecule isomorphic to the incoming one: where it
    is stored, its value, and the alignment of the incoming atoms onto it. *)
Abbreviation candidate := (loc * DatasetEntry * AtomMap)%type.

Definition candidates (h : heap) (d : list (string * loc)) (molecule : Topology)
    : list candidate :=
  omap (λ kr, e ← h !! kr.2;
              m ← are_isomorphic molecule (attributes e);
              Some (kr.2, e, m)) d.

(** A candidate is found again through its index, as the loops do. *)
Definition resolves (h : heap) (d : list (string * loc)) (molecule : Topology)
    (c : candidate) : Prop :=
  odict_get (index c.1.2) d = Some c.1.1 ∧ h !! c.1.1 = Some c.1.2 ∧
  are_isomorphic molecule (attributes c.1.2) = Some c.2.

(** What [get_molecule_entry] returns for them, and the geometries they hold. *)
Definition ids (cs : list candidate) : list string :=
  (λ c : candidate, index c.1.2) <$> cs.

Definition geometry_total (cs : list candidate) : nat :=
  sum_list ((λ c : candidate, length (initial_molecules c.1.2)) <$> cs).

(** The first candidate a policy accepts; the scan stops there (or at a
    candidate for which the test raises). *)
Fixpoint first_match (accepts : candidate → result bool) (cs : list candidate)
    : result (option candidate) :=
  match cs with
  | [] => Ok None
  | c :: cs' => b ← accepts c; if (b : bool) then Ok (Some c) else first_match accepts cs'
  end.

(** The central bonds of a list of torsions, each in both directions. *)
Definition bond_set (ds : list torsion) : gset (nat * nat) :=
  list_to_set (ds ≫= λ '(_, b, c, _), [(b, c); (c, b)]).

Definition remap_torsion (m : AtomMap) (t : torsion) : torsion :=
  let '(a, b, c, d) := t in (m a, m b, m c, m d).

(** The plain policy accepts the first candidate. *)
Definition plain_accepts (entry : DatasetEntry) (c : candidate) : result bool :=
  Ok true.

(** The constraint-aware policy accepts a candidate whose constraints equal
    the incoming ones rebuilt through the alignment. *)
Definition constraints_accepts (entry : DatasetEntry) (c : candidate) : result bool :=
  let '(_, current_entry, atom_map) := c in
  entry_constraints ← remap_constraints (constraints entry) (Some atom_map);
  Ok (Constraints_eqb (constraints current_entry) entry_constraints).

(** The dihedral-aware policy accepts a candidate whose central bonds are all
    among the aligned central bonds of the incoming entry. *)
Definition dihedrals_accepts (entry : DatasetEntry) (c : candidate) : result bool :=
  let '(_, current_entry, atom_map) := c in
  current_ds ← iter_dihedrals current_entry;
  entry_ds ← iter_dihedrals entry;
  Ok (bool_decide (bond_set current_ds ⊆ bond_set (remap_torsion atom_map <$> entry_ds))).

(** The index a constraint-aware merge gives an entry that matched molecules
    but no constraints: the root of its index and its tag advanced by the
    number of geometries held by the candidates. *)
Definition disambiguated_index (entry : DatasetEntry) (cs : list candidate) : string :=
  let '(core, tag) := _clean_index (index entry) in
  core +:+ "-" +:+ pretty (tag + geometry_total cs).

(** Where a policy inserts an entry that no candidate accepted, and the entry
    as inserted. *)
Definition inserted_as (c : DatasetClass) (key : string) (entry : DatasetEntry)
    (cs : list candidate) : string * DatasetEntry :=
  match c, cs with
  | OptimizationDataset, [] => (index entry, entry)
  | OptimizationDataset, _ =>
      (disambiguated_index entry cs, set_index (disambiguated_index entry cs) entry)
  | _, _ => (key, entry)
  end.

Definition accepts (c : DatasetClass) : DatasetEntry → candidate → result bool :=
  match c with
  | BasicDataset => plain_accepts
  | OptimizationDataset => constraints_accepts
  | TorsiondriveDataset => dihedrals_accepts
  end.

(** One iteration of a merge, as specified. *)
Definition spec_step (c : DatasetClass) (new_dataset : list (string * loc))
    (item : string * loc) : M (list (string * loc)) :=
  let '(key, r) := item in
  entry ← load r;
  cs ← lift (λ h, Ok (candidates h new_dataset (attributes entry)));
  found ← lift (λ _, first_match (accepts c entry) cs);
  match found with
  | Some (current, _, atom_map) =>
      _ ← transfer_geometries (attributes entry) (Some atom_map)
            (initial_molecules entry) current;
      mret new_dataset
  | None =>
      let '(key', entry') := inserted_as c key entry cs in
      _ ← store r entry';
      mret (odict_set key' r new_dataset)
  end.

(** The geometries of an entry after the incoming ones were transferred into
    it: each incoming geometry, remapped onto the entry's atom order, is
    appended unless an equal one is already there.  (Into an entry without
    geometries nothing can be transferred: the loop raises.) *)
Definition fuse_geometries (molecule : Topology) (atom_map : AtomMap)
    (geometries current : list QCMol) : list QCMol :=
  foldl (λ acc geometry,
           match acc with
           | [] => acc
           | first :: _ =>
               let mapped_schema :=
                 remap_to_qcschema molecule atom_map geometry (qc_extras first) in
               if existsb (λ m, qcmol_eqb m mapped_schema) acc then acc
               else acc ++ [mapped_schema]
           end)
    current geometries.

(** A merge iteration that overwrites nothing: it leaves the dictionary alone
    (a transfer) or appends an index that was not in use. *)
Definition appends_or_keeps (d d' : list (string * loc)) : Prop :=
  d' = d ∨ ∃ kr, (fst kr ∉ odict_keys d) ∧ d' = d ++ [kr].

Fixpoint overwrite_free (step : list (string * loc) → string * loc → M (list (string * loc)))
    (d : list (string * loc)) (items : list (string * loc)) (h : heap) : Prop :=
  match items with
  | [] => True
  | item :: rest =>
      match step d item h with
      | (h', Ok d') => appends_or_keeps d d' ∧ overwrite_free step d' rest h'
      | (_, Raise _) => True
      end
  end.

(** [self + other] stores no entry of [other] under an index already in use. *)
Definition add_overwrite_free (self other : Dataset) (h : heap) : Prop :=
  match deepcopy_entries [] (dataset self) h with
  | (h', Ok entries) =>
      overwrite_free (add_step (dataset_class self)) entries (dataset other) h'
  | (_, Raise _) => True
  end.

(** ** What a statement may change

    [modifies_only P h h']: between the stores [h] and [h'] no object was
    created and only objects at references in [P] were written. *)
Definition modifies_only (P : loc → Prop) (h h' : heap) : Prop :=
  length h' = length h ∧ ∀ r, ¬ P r → h' !! r = h !! r.

(** A loop body of [__add__] stays in its frame when it writes only to the
    incoming entry and to entries of the dictionary it builds, and leaves the
    dictionary as it is or stores the incoming entry in it. *)
Definition step_in_frame
    (step : list (string * loc) → string * loc → M (list (string * loc))) : Prop :=
  ∀ nd item h h' res,
    step nd item h = (h', res) →
    modifies_only (λ x, x = item.2 ∨ x ∈ odict_values nd) h h' ∧
    ∀ nd', res = Ok nd' → nd' = nd ∨ ∃ k', nd' = odict_set k' item.2 nd.

End model.

Abbreviation loc := nat.
Abbreviation heap := (list DatasetEntry).
Abbreviation candidate := (loc * DatasetEntry * AtomMap)%type.

(** ** A reference toolkit

    A small implementation of the interface, used to run the model on concrete
    datasets.  A molecule is a species name with the canonical rank of each
    stored atom (the atom map numbers of a mapped SMILES); two molecules are
    isomorphic when they are the same species, and the atom map sends an atom
    to the atom of the same rank. *)
Module Reference.

Record graph : Type := {
  species : string;
  ranks : list nat;
}.

Definition index_of (x : nat) (l : list nat) : nat :=
  default 0 (fst <$> list_find (λ y, y = x) l).

#[global] Instance graph_eq_dec : EqDecision graph.
Proof. solve_decision. Defined.

(** A molecule aligns with itself by the identity. *)
Definition isomorphic (a b : graph) : option AtomMap :=
  if decide (a = b) then Some (λ i, i)
  else if decide (species a = species b ∧ length (ranks a) = length (ranks b))
  then Some (λ i, index_of (default 0 (ranks a !! i)) (ranks b))
  else None.

Record schema : Type := {
  symbols : list string;
  geometry : conformer;
  extras : string;
}.

(** QCElemental compares molecules by a hash of their fields (the extras
    apart): the same symbols and the same coordinates, bit for bit. *)
Definition same_coord (a b : coord) : bool :=
  let '(x1, y1, z1) := a in
  let '(x2, y2, z2) := b in
  PrimFloat.Leibniz.eqb x1 x2 && PrimFloat.Leibniz.eqb y1 y2 && PrimFloat.Leibniz.eqb z1 z2.

Fixpoint same_geometry (a b : conformer) : bool :=
  match a, b with
  | [], [] => true
  | x :: a', y :: b' => same_coord x y && same_geometry a' b'
  | _, _ => false
  end.

Definition schema_eqb (a b : schema) : bool :=
  bool_decide (symbols a = symbols b) && same_geometry (geometry a) (geometry b).

(** An atom's symbol is its rank, printed. *)
Definition symbols_of (t : graph) : list string := pretty <$> ranks t.

Definition origin : coord := (0%float, 0%float, 0%float).

(** [new[atom_map[i]] = old[i]] *)
Definition permute {A} (d : A) (atom_map : AtomMap) (old : list A) : list A :=
  (λ j, default d (list_find (λ i, atom_map i = j) (seq 0 (length old))
                     ≫= λ '(_, i), old !! i))
    <$> seq 0 (length old).

Definition schema_of (t : graph) (c : conformer) (ex : string) : result schema :=
  if decide (length c = length (ranks t))
  then Ok {| symbols := symbols_of t; geometry := c; extras := ex |}
  else Raise ValidationError.

Definition remap_schema (t : graph) (atom_map : AtomMap) (m : schema) (ex : string)
    : schema :=
  {| symbols := permute ""%string atom_map (symbols m);
     geometry := permute origin atom_map (geometry m);
     extras := ex |}.

(** Modelled from the spec: the [Constraints] model is not among the sources;
    the spec has a constraint carry a type, its atom indices and, when it sets
    a value, that value, has a constraint set hold a set of freeze constraints
    and a set of set constraints, and compares constraint sets structurally. *)
Record constraint_set : Type := {
  freeze : gset (string * list nat);
  set : gset (string * list nat * Z);
}.

#[global] Instance constraint_set_eq_dec : EqDecision constraint_set.
Proof. solve_decision. Defined.

Definition add_freeze (t : string) (indices : list nat) (c : constraint_set)
    : result constraint_set :=
  Ok {| freeze := freeze c ∪ {[ (t, indices) ]}; set := set c |}.

Definition add_set (t : string) (indices : list nat) (v : Z) (c : constraint_set)
    : result constraint_set :=
  Ok {| freeze := freeze c; set := set c ∪ {[ (t, indices, v) ]} |}.

(** Modelled from the spec: [IndexCleaner._clean_index] is not among the
    sources; the spec has an index be a root with a numeric suffix.  An index
    ending in ["-<digits>"] splits into its root and that number, any other
    index is its own root with tag 0. *)
Definition is_digit (a : Ascii.ascii) : bool :=
  let n := Ascii.nat_of_ascii a in (48 <=? n) && (n <=? 57).

Definition digits_value (ds : list Ascii.ascii) : nat :=
  foldl (λ acc a, 10 * acc + (Ascii.nat_of_ascii a - 48)) 0 ds.

Fixpoint leading_digits (l : list Ascii.ascii) : list Ascii.ascii * list Ascii.ascii :=
  match l with
  | a :: l' =>
      if is_digit a then let '(ds, rest) := leading_digits l' in (a :: ds, rest)
      else ([], l)
  | [] => ([], [])
  end.

Definition clean_index (index : string) : string * nat :=
  match leading_digits (reverse (String.list_ascii_of_string index)) with
  | ((_ :: _) as rev_digits, dash :: rev_core) =>
      if decide (Ascii.nat_of_ascii dash = 45)
      then (String.string_of_list_ascii (reverse rev_core),
            digits_value (reverse rev_digits))
      else (index, 0)
  | _ => (index, 0)
  end.

(** A torsion indexer is the list of torsions recorded so far. *)
Definition indexer_update (current new : list torsion) (atom_map : AtomMap)
    : list torsion :=
  foldl (λ acc '(a, b, c, d),
           let t := (atom_map a, atom_map b, atom_map c, atom_map d) in
           if decide (t ∈ acc) then acc else acc ++ [t])
    current new.

#[global] Instance toolkit : Toolkit := {|
  Topology := graph;
  n_atoms t := length (ranks t);
  to_inchikey := species;
  to_smiles := species;
  are_isomorphic := isomorphic;
  generate_conformers t := [replicate (length (ranks t)) origin];
  TorsionIndexer := list torsion;
  TorsionIndexer_new := [];
  TorsionIndexer_update := indexer_update;
  QCMol := schema;
  Extras := string;
  qcmol_eqb := schema_eqb;
  qc_symbols := symbols;
  qc_extras := extras;
  to_qcschema := schema_of;
  remap_to_qcschema := remap_schema;
  stamp_cmiles _ m := m;
  Constraints := constraint_set;
  ConstraintsDict := constraint_set;
  CType := string;
  CValue := Z;
  Constraints_new := {| freeze := ∅; set := ∅ |};
  Constraints_parse := Ok;
  Constraints_eqb a b := bool_decide (a = b);
  Constraints_freeze c := elements (freeze c);
  Constraints_set c := elements (set c);
  add_freeze_constraint := add_freeze;
  add_set_constraint := add_set;
  cmiles_validator _ := None;
  check_valence_connectivity _ := None;
  check_constraints _ _ := None;
  check_linear_torsions _ _ := None;
  check_torsion_connection _ _ := true;
  check_improper_connection _ _ := true;
  _clean_index := clean_index;
|}.

End Reference.

(** ** Sample data for the reference toolkit *)
Module Samples.

Definition graph (name : string) (ranks : list nat) : Reference.graph :=
  {| Reference.species := name; Reference.ranks := ranks |}.

(** Ethanol's heavy atoms in two atom orders, and methylamine. *)
Definition CCO : Reference.graph := graph "CCO" [0; 1; 2].
Definition OCC : Reference.graph := graph "CCO" [2; 0; 1].
Definition CN : Reference.graph := graph "CN" [0; 1].

(** Butane's carbons, forwards and backwards. *)
Definition CCCC : Reference.graph := graph "CCCC" [0; 1; 2; 3].
Definition CCCC_rev : Reference.graph := graph "CCCC" [3; 2; 1; 0].

(** Pentane's carbons: the torsions 0-1-2-3 and 1-2-3-4 turn about different
    bonds. *)
Definition CCCCC : Reference.graph := graph "CCCCC" [0; 1; 2; 3; 4].

Definition pt (x : float) : coord := (x, 0%float, 0%float).
Definition conf (xs : list float) : conformer := pt <$> xs.

Definition molecule (t : Reference.graph) (cs : list (list float)) : Molecule :=
  {| topology := t; conformers := conf <$> cs; properties_dihedrals := None |}.

Definition empty_result : ComponentResult := {| _molecules := ∅; _filtered := ∅ |}.

Definition geom (t : Reference.graph) (xs : list float) : Reference.schema :=
  {| Reference.symbols := Reference.symbols_of t;
     Reference.geometry := conf xs;
     Reference.extras := "" |}.

Definition no_constraints : Reference.constraint_set :=
  {| Reference.freeze := ∅; Reference.set := ∅ |}.

Definition freeze_bond (a b : nat) : Reference.constraint_set :=
  {| Reference.freeze := {[ ("distance"%string, [a; b]) ]}; Reference.set := ∅ |}.

Definition entry (i : string) (t : Reference.graph) (gs : list (list float))
    (ds : option (list torsion)) (cs : Reference.constraint_set) : DatasetEntry :=
  {| index := i; initial_molecules := geom t <$> gs; attributes := t;
     dihedrals := ds; constraints := cs |}.

Definition mk_dataset (c : DatasetClass) (type : string) (d : list (string * loc))
    : Dataset :=
  {| dataset_class := c; dataset_type := type; metadata_elements := ∅; provenance := [];
     dataset := d; filtered_molecules := [] |}.

Definition basic : list (string * loc) → Dataset := mk_dataset BasicDataset "DataSet".
Definition optimization : list (string * loc) → Dataset :=
  mk_dataset OptimizationDataset "OptimizationDataset".
Definition torsiondrive : list (string * loc) → Dataset :=
  mk_dataset TorsiondriveDataset "TorsiondriveDataset".

(** What a merge is judged by: per index, the entry's own index and how many
    geometries it holds. *)
Definition summary (h : heap) (d : Dataset) : list (string * option (string * nat)) :=
  (λ kr, (kr.1, (λ e, (index e, length (initial_molecules e))) <$> h !! kr.2))
    <$> dataset d.

End Samples.

(** * Theorems *)

(** ** ComponentResult *)
Section component_result.
Context `{!Toolkit}.

Lemma transfer_conformers_spec n mapping incoming remapped kept :
  mapM (remap_conformer n mapping) incoming = Some remapped →
  transfer_conformers n mapping incoming kept
  = (kept ++ genuinely_new kept remapped, None).
Proof.
  revert remapped kept. induction incoming as [|c cs IH]; intros remapped kept Hm.
  - simpl in Hm. injection Hm as <-. simpl. by rewrite app_nil_r.
  - simpl in Hm. destruct (remap_conformer n mapping c) as [c'|] eqn:Hc; [|done].
    simpl in Hm. destruct (mapM _ cs) as [cs'|] eqn:Hcs; [|done].
    simpl in Hm. injection Hm as <-. simpl. rewrite Hc.
    rewrite (IH cs' _ eq_refl). unfold add_conformer_if_new.
    destruct (conformer_present c' kept); [done|]. by rewrite <- app_assoc.
Qed.

Lemma transfer_conformers_snoc n mapping before c c' kept confs :
  transfer_conformers n mapping before kept = (confs, None) →
  remap_conformer n mapping c = Some c' →
  transfer_conformers n mapping (before ++ [c]) kept
  = (add_conformer_if_new confs c', None).
Proof.
  revert kept. induction before as [|x l IH]; intros kept Hl Hc; simpl in *.
  - injection Hl as <-. by rewrite Hc.
  - destruct (remap_conformer n mapping x); [|done]. by apply IH.
Qed.

Lemma remap_conformer_Some n mapping c :
  (∀ i, i < n → mapping i < length c) →
  ∃ c', remap_conformer n mapping c = Some c' ∧ length c' = n ∧
        ∀ i, i < n → c' !! i = c !! mapping i.
Proof.
  intros Hin. unfold remap_conformer.
  assert (Hs : is_Some (mapM (λ i, c !! mapping i) (seq 0 n))).
  { apply mapM_is_Some, Forall_forall. intros i Hi%elem_of_seq. simpl.
    apply lookup_lt_is_Some. apply Hin. lia. }
  destruct Hs as [c' Hc']. exists c'. split; [done|].
  apply mapM_Some in Hc'. split.
  - apply Forall2_length in Hc'. by rewrite length_seq in Hc'.
  - intros i Hi.
    assert (Hs : seq 0 n !! i = Some i) by (apply lookup_seq; lia).
    destruct (Forall2_lookup_l _ _ _ _ _ Hc' Hs) as (y & Hy & Hy').
    simpl in Hy'. etrans; [exact Hy|symmetry; exact Hy'].
Qed.

Lemma remap_conformers_Some n mapping cs :
  Forall (λ c, ∀ i, i < n → mapping i < length c) cs →
  ∃ remapped,
    mapM (remap_conformer n mapping) cs = Some remapped ∧
    Forall2 (λ c c', remap_conformer n mapping c = Some c' ∧ length c' = n ∧
                     ∀ i, i < n → c' !! i = c !! mapping i) cs remapped.
Proof.
  induction 1 as [|c cs Hc _ (remapped & Hm & HF)].
  - exists []. split; [done|constructor].
  - destruct (remap_conformer_Some n mapping c Hc) as (c' & Hc' & Hlen & Hrow).
    exists (c' :: remapped). split.
    + simpl. rewrite Hc'. simpl. by rewrite Hm.
    + by constructor.
Qed.

(** The transfer as the code has it.  When the canonical key of [molecule] is
    already kept, and the atom map stays inside every conformer, [add_molecule] raises nothing and
    transfers the conformers in order: each one is remapped row by row
    ([new[i] = conformer[mapping[i]]]) and appended to the kept molecule's
    conformer list exactly when no conformer already in that list (kept before,
    or appended earlier in the same call) equals it under exact float equality.
    The kept list is a prefix of the result, the conformers appended are the
    genuinely new ones, and the count grows by their number; no other kept or
    filtered molecule changes. *)
Theorem add_molecule_appends_exactly_new_conformers
    (molecule current : Molecule) (self : ComponentResult) (mapping : AtomMap) :
  let key := to_inchikey (topology molecule) in
  let n := n_atoms (topology molecule) in
  _molecules self !! key = Some current →
  are_isomorphic (topology molecule) (topology current) = Some mapping →
  Forall (λ c, ∀ i, i < n → mapping i < length c) (conformers molecule) →
  ∃ (remapped : list conformer) (self' : ComponentResult) (kept : Molecule),
    Forall2 (λ c c', length c' = n ∧ ∀ i, i < n → c' !! i = c !! mapping i)
      (conformers molecule) remapped ∧
    ComponentResult_add_molecule molecule self = (self', None) ∧
    _molecules self' !! key = Some kept ∧
    topology kept = topology current ∧
    conformers kept
      = conformers current ++ genuinely_new (conformers current) remapped ∧
    length (conformers kept)
      = length (conformers current)
        + length (genuinely_new (conformers current) remapped) ∧
    (∀ before c' after, remapped = before ++ c' :: after →
       ∃ confs,
         transfer_conformers n mapping (take (length before) (conformers molecule))
           (conformers current) = (confs, None) ∧
         transfer_conformers n mapping (take (S (length before)) (conformers molecule))
           (conformers current)
         = (if conformer_present c' confs then confs else confs ++ [c'], None)) ∧
    (∀ k, k ≠ key → _molecules self' !! k = _molecules self !! k) ∧
    _filtered self' = _filtered self.
Proof.
  intros key n Hkept Hiso Hrows.
  destruct (remap_conformers_Some n mapping _ Hrows) as (remapped & Hm & HF).
  pose proof (transfer_conformers_spec n mapping _ _
                (conformers current) Hm) as Htr.
  unfold ComponentResult_add_molecule. fold key. rewrite Hkept, Hiso. fold n.
  assert (HF' : Forall2 (λ c c', length c' = n ∧ ∀ i, i < n → c' !! i = c !! mapping i)
                  (conformers molecule) remapped).
  { eapply Forall2_impl; [exact HF|]. intros c c' (_ & Hlen & Hrow). by split. }
  destruct (properties_dihedrals molecule) as [indexer|]; simpl;
    rewrite Htr; simpl; eexists remapped, _, _.
  all: split; [exact HF'|].
  all: split; [reflexivity|].
  all: split; [apply lookup_insert_eq|].
  all: split; [reflexivity|]; split; [reflexivity|].
  all: split; [simpl; by rewrite length_app|].
  all: split; [|split; [intros k Hk; by apply lookup_insert_ne|reflexivity]].
  all: intros before c' after ->.
  all: apply Forall2_app_inv_r in HF as (l1 & l2 & Hl1 & Hl2 & Heq).
  all: apply Forall2_cons_inv_r in Hl2 as (c & l2' & (Hc & _) & Hl2' & ->).
  all: assert (Hlen : length l1 = length before) by (by eapply Forall2_length).
  all: assert (Hmb : mapM (remap_conformer n mapping) l1 = Some before)
         by (apply mapM_Some; eapply Forall2_impl; [exact Hl1|]; by intros ?? [? _]).
  all: pose proof (transfer_conformers_spec n mapping _ _ (conformers current) Hmb) as Hb.
  all: eexists; rewrite Heq, <- Hlen.
  all: rewrite take_app_length; split; [exact Hb|].
  all: replace (S (length l1)) with (length (l1 ++ [c])) by (rewrite length_app; simpl; lia).
  all: rewrite (cons_middle c l1 l2'), app_assoc, take_app_length.
  all: by rewrite (transfer_conformers_snoc _ _ _ _ _ _ _ Hb Hc).
Qed.

(** C5, as the code has it.  [add_molecule] looks only at the kept map, so
    adding a molecule right after filtering it puts its canonical key back
    among the kept molecules; the record among the filtered ones stays. *)
Theorem add_after_filter_revives (molecule : Molecule) (self : ComponentResult) :
  let key := to_inchikey (topology molecule) in
  let filtered := ComponentResult_filter_molecule molecule self in
  let '(self', raised) := ComponentResult_add_molecule molecule filtered in
  _molecules filtered !! key = None ∧
  _filtered filtered !! key = Some molecule ∧
  raised = None ∧
  _molecules self' !! key = Some molecule ∧
  _filtered self' !! key = Some molecule.
Proof.
  unfold ComponentResult_add_molecule, ComponentResult_filter_molecule. simpl.
  rewrite lookup_delete_eq. simpl.
  rewrite !lookup_insert_eq. auto.
Qed.

End component_result.

(** The transfer at a concrete molecule: ethanol kept in one atom order, added
    again in another with two conformers. *)
Lemma add_molecule_appends_exactly_new_conformers_witness :
  let current := Samples.molecule Samples.CCO [[1; 2; 3]%float] in
  let molecule := Samples.molecule Samples.OCC [[2; 3; 1]; [5; 6; 4]]%float in
  let self := {| _molecules := {[ "CCO"%string := current ]}; _filtered := ∅ |} in
  ∃ mapping,
    Reference.isomorphic Samples.OCC Samples.CCO = Some mapping ∧
    ∃ remapped self' kept,
      Forall2 (λ c c', length c' = 3 ∧ ∀ i, i < 3 → c' !! i = c !! mapping i)
        (conformers molecule) remapped ∧
      ComponentResult_add_molecule molecule self = (self', None) ∧
      _molecules self' !! "CCO"%string = Some kept ∧
      topology kept = topology current ∧
      conformers kept
        = conformers current ++ genuinely_new (conformers current) remapped ∧
      length (conformers kept)
        = length (conformers current)
          + length (genuinely_new (conformers current) remapped) ∧
      (∀ before c' after, remapped = before ++ c' :: after →
         ∃ confs,
           transfer_conformers 3 mapping (take (length before) (conformers molecule))
             (conformers current) = (confs, None) ∧
           transfer_conformers 3 mapping (take (S (length before)) (conformers molecule))
             (conformers current)
           = (if conformer_present c' confs then confs else confs ++ [c'], None)) ∧
      (∀ k, k ≠ "CCO"%string → _molecules self' !! k = _molecules self !! k) ∧
      _filtered self' = _filtered self.
Proof.
  intros current molecule self. eexists. split; [reflexivity|].
  apply (add_molecule_appends_exactly_new_conformers molecule current self).
  - reflexivity.
  - reflexivity.
  - apply Forall_cons; split; [|apply Forall_cons; split; [|by apply Forall_nil]].
    all: cbv beta; intros i Hi; (do 3 (destruct i as [|i]; [vm_compute; lia|])).
    all: vm_compute in Hi; lia.
Defined.

(** C6 fails on the code.  The atom map sends an atom of the incoming molecule
    to its atom in the kept one, and the loop reads it the other way round
    ([new_conformer[i] = conformer[mapping[i]]]): the conformer it compares
    and appends is not the incoming one in the kept atom order.  Ethanol is
    kept with atoms (C, C, O) and one conformer; it is added again with atoms
    (O, C, C) and two conformers, the kept geometry and a new one.  Aligned
    onto the kept order these are the kept conformer and one new conformer,
    so one conformer should be appended; the code appends two, and neither
    is a conformer that was given: their rows are the incoming rows in an
    order that is neither molecule's.  When the two atom orders agree the map is
    the identity and the transfer does what is claimed: a conformer equal to a
    kept one, or to one appended a moment before, is not appended. *)
Lemma add_molecule_scrambles_known_geometry :
  (let kept := Samples.molecule Samples.CCO [[10; 11; 12]%float] in
   let incoming := Samples.molecule Samples.OCC [[12; 10; 11]; [22; 20; 21]]%float in
   let self := {| _molecules := {[ "CCO"%string := kept ]}; _filtered := ∅ |} in
   let after := ComponentResult_add_molecule incoming self in
   (λ mapping : AtomMap, mapping <$> [0; 1; 2])
     <$> are_isomorphic (topology incoming) (topology kept) = Some [2; 0; 1] ∧
   (are_isomorphic (topology incoming) (topology kept)
      ≫= λ mapping, mapM (aligned_conformer 3 mapping) (conformers incoming))
   = Some (Samples.conf <$> [[10; 11; 12]; [20; 21; 22]]%float) ∧
   after.2 = None ∧
   conformers <$> _molecules after.1 !! "CCO"%string
   = Some (Samples.conf <$> [[10; 11; 12]; [11; 12; 10]; [21; 22; 20]]%float)) ∧
  (let kept := Samples.molecule Samples.CCO [[10; 11; 12]%float] in
   let incoming :=
     Samples.molecule Samples.CCO [[10; 11; 12]; [20; 21; 22]; [20; 21; 22]]%float in
   let self := {| _molecules := {[ "CCO"%string := kept ]}; _filtered := ∅ |} in
   let after := ComponentResult_add_molecule incoming self in
   after.2 = None ∧
   conformers <$> _molecules after.1 !! "CCO"%string
   = Some (Samples.conf <$> [[10; 11; 12]; [20; 21; 22]]%float)).
Proof. repeat split; vm_compute; reflexivity. Qed.

(** C5 as stated fails: after [filter_molecule] then [add_molecule] the key is
    kept again. *)
Lemma add_after_filter_not_absent :
  let m := Samples.molecule Samples.CCO [[1; 2; 3]%float] in
  let self' :=
    (ComponentResult_add_molecule m
       (ComponentResult_filter_molecule m Samples.empty_result)).1 in
  ¬ (_molecules self' !! "CCO"%string = None ∧
     is_Some (_filtered self' !! "CCO"%string)).
Proof.
  intros m self' [Hkept _]. revert Hkept.
  unfold self', ComponentResult_add_molecule, ComponentResult_filter_molecule.
  cbn [_molecules _filtered Samples.empty_result].
  rewrite lookup_delete_eq. cbn [_molecules fst].
  by rewrite lookup_insert_eq.
Qed.

(** ** Insertion-ordered dictionaries *)
Section odict_facts.
Context {V : Type}.
Implicit Types (d : list (string * V)) (k : string) (v : V).

Lemma odict_get_set_eq k v d : odict_get k (odict_set k v d) = Some v.
Proof.
  induction d as [|[k' v'] d IH]; simpl.
  - by rewrite decide_True.
  - destruct (decide (k' = k)) as [->|Hne]; simpl.
    + by rewrite decide_True.
    + by rewrite decide_False.
Qed.

Lemma odict_get_set_ne k k' v d :
  k ≠ k' → odict_get k' (odict_set k v d) = odict_get k' d.
Proof.
  intros Hne. induction d as [|[k0 v0] d IH]; simpl.
  - by rewrite decide_False.
  - destruct (decide (k0 = k)) as [->|Hne0]; simpl.
    + by rewrite !decide_False.
    + by rewrite IH.
Qed.

Lemma odict_get_Some_keys k v d : odict_get k d = Some v → k ∈ odict_keys d.
Proof.
  induction d as [|[k' v'] d IH]; simpl; [done|].
  destruct (decide (k' = k)) as [->|Hne]; intros Hg.
  - apply list_elem_of_here.
  - apply list_elem_of_further. by apply IH.
Qed.

Lemma odict_get_None_keys k d : odict_get k d = None ↔ k ∉ odict_keys d.
Proof.
  induction d as [|[k' v'] d IH]; simpl.
  - split; [intros _; apply not_elem_of_nil|done].
  - rewrite not_elem_of_cons. destruct (decide (k' = k)) as [->|Hne].
    + split; [done|]. by intros [? _].
    + rewrite IH. split; [intros ?; split; [congruence|done]|by intros [_ ?]].
Qed.

Lemma odict_set_present_keys k v d :
  k ∈ odict_keys d → odict_keys (odict_set k v d) = odict_keys d.
Proof.
  induction d as [|[k' v'] d IH]; simpl.
  - by intros ?%elem_of_nil.
  - destruct (decide (k' = k)) as [->|Hne]; simpl; [done|].
    intros [?|Hin]%elem_of_cons; [congruence|]. by rewrite IH.
Qed.

Lemma odict_set_fresh k v d :
  k ∉ odict_keys d → odict_set k v d = d ++ [(k, v)].
Proof.
  induction d as [|[k' v'] d IH]; simpl; [done|].
  rewrite not_elem_of_cons. intros [Hne Hnin].
  rewrite decide_False by done. by rewrite IH.
Qed.

Lemma odict_set_present_length k v d :
  k ∈ odict_keys d → length (odict_set k v d) = length d.
Proof.
  intros Hin. apply (odict_set_present_keys k v) in Hin.
  apply (f_equal length) in Hin. unfold odict_keys in Hin.
  by rewrite !length_fmap in Hin.
Qed.

End odict_facts.

(** ** Results *)
Lemma result_bind_Ok {A B : Type} (f : A → result B) (m : result A) (b : B) :
  (m ≫= f) = Ok b ↔ ∃ a, m = Ok a ∧ f a = Ok b.
Proof.
  destruct m as [a|e]; simpl.
  - split; [by exists a|]. by intros (a' & [= <-] & ?).
  - split; [done|]. by intros (? & ? & ?).
Qed.

Section result_facts.
Context {A B : Type}.

Lemma result_mapM_length (f : A → result B) (l : list A) (k : list B) :
  result_mapM f l = Ok k → length k = length l.
Proof.
  revert k. induction l as [|x l IH]; intros k; simpl.
  - by intros [= <-].
  - intros (y & _ & (ys & Hys & [= <-])%result_bind_Ok)%result_bind_Ok.
    simpl. f_equal. by apply IH.
Qed.

Lemma result_mapM_Ok (f : A → result B) (l : list A) (k : list B) :
  result_mapM f l = Ok k ↔ Forall2 (λ x y, f x = Ok y) l k.
Proof.
  revert k. induction l as [|x l IH]; intros k; simpl.
  - split; [intros [= <-]; constructor|]. by intros ->%Forall2_nil_inv_l.
  - split.
    + intros (y & Hy & (ys & Hys & [= <-])%result_bind_Ok)%result_bind_Ok.
      constructor; [done|]. by apply IH.
    + intros (y & ys & Hy & Hys & ->)%Forall2_cons_inv_l.
      rewrite Hy. simpl. apply IH in Hys. by rewrite Hys.
Qed.

End result_facts.

(** ** Entries, counts and [add_molecule] *)
Section dataset_basics.
Context `{!Toolkit}.

Lemma DatasetEntry_init_Ok molecule i a ex kc ds e :
  DatasetEntry_init molecule i a ex kc ds = Ok e →
  index e = i ∧ attributes e = a ∧ dihedrals e = ds ∧
  length (initial_molecules e)
  = length (match conformers molecule with
            | [] => generate_conformers (topology molecule)
            | cs => cs
            end).
Proof.
  unfold DatasetEntry_init.
  intros (cs & _ & (ms & Hms & H1)%result_bind_Ok)%result_bind_Ok.
  apply result_bind_Ok in H1 as (_ & _ & H1).
  apply result_bind_Ok in H1 as (_ & _ & H1).
  apply result_bind_Ok in H1 as (_ & _ & H1).
  apply result_bind_Ok in H1 as (_ & _ & [= <-]). simpl.
  rewrite length_fmap. by rewrite (result_mapM_length _ _ _ Hms).
Qed.

Lemma load_all_Ok (h : heap) (d : list (string * loc)) (entries : list DatasetEntry) :
  Forall2 (λ kr e, h !! kr.2 = Some e) d entries →
  result_mapM (load_at h) (odict_values d) = Ok entries.
Proof.
  intros HF. apply result_mapM_Ok. unfold odict_values.
  apply Forall2_fmap_l. eapply Forall2_impl; [exact HF|].
  intros [k r] e Hre. simpl in *. unfold load_at. by rewrite Hre.
Qed.

(** C9, as the code has it.  [n_records] is a function of the current entries:
    for a basic or an optimization dataset it is the number of geometries
    summed over the entries, for a torsiondrive dataset (which overrides the
    property) it is the number of entries. *)
Theorem n_records_by_class (h : heap) (self : Dataset) (entries : list DatasetEntry) :
  Forall2 (λ kr e, h !! kr.2 = Some e) (dataset self) entries →
  n_records h self
  = Ok (match dataset_class self with
        | TorsiondriveDataset => length (dataset self)
        | _ => sum_list ((λ e, length (initial_molecules e)) <$> entries)
        end).
Proof.
  intros HF. unfold n_records, BasicDataset_n_records, TorsiondriveDataset_n_records.
  destruct (dataset_class self); [| |done]; by rewrite (load_all_Ok _ _ _ HF).
Qed.

(** C7.  When the declared types differ, every [__add__] raises
    [DatasetCombinationError] before anything else: the store, and with it
    every entry of both datasets, is left as it was. *)
Theorem add_rejects_mismatched_types (self other : Dataset) (h : heap) :
  dataset_type self ≠ dataset_type other →
  BasicDataset_add self other h = (h, Raise DatasetCombinationError) ∧
  OptimizationDataset_add self other h = (h, Raise DatasetCombinationError) ∧
  TorsiondriveDataset_add self other h = (h, Raise DatasetCombinationError) ∧
  Dataset_add self other h = (h, Raise DatasetCombinationError).
Proof.
  intros Hne.
  unfold BasicDataset_add, OptimizationDataset_add, TorsiondriveDataset_add,
    Dataset_add, add_with.
  by rewrite !decide_True.
Qed.

(** C10.  Adding a molecule under an index the dataset already has, when the
    entry is constructed, replaces the entry in place: nothing is raised, the
    index now refers to the new entry (with the new entry's geometries), the
    keys and their number are unchanged, every other index keeps its entry,
    and no filter record is written. *)
Theorem add_molecule_replaces_existing_index
    (i : string) (molecule : Molecule) (a : Topology) (ex : Extras)
    (kc : option ConstraintsDict) (ds : option (list torsion))
    (self : Dataset) (h : heap) (old : loc) (data_entry : DatasetEntry) :
  odict_get i (dataset self) = Some old →
  DatasetEntry_init molecule i a ex kc ds = Ok data_entry →
  (conformers molecule = [] → generate_conformers (topology molecule) ≠ []) →
  ∃ h' self',
    add_molecule i molecule a ex kc ds self h = (h', self', None) ∧
    (∃ new, odict_get i (dataset self') = Some new ∧
            h' !! new = Some data_entry ∧ index data_entry = i) ∧
    odict_keys (dataset self') = odict_keys (dataset self) ∧
    length (dataset self') = length (dataset self) ∧
    (∀ k, k ≠ i → odict_get k (dataset self') = odict_get k (dataset self)) ∧
    (∀ r e, h !! r = Some e → h' !! r = Some e) ∧
    filtered_molecules self' = filtered_molecules self.
Proof.
  intros Hold Hinit Hgen.
  destruct (DatasetEntry_init_Ok _ _ _ _ _ _ _ Hinit) as (Hi & _ & _ & Hlen).
  unfold add_molecule. rewrite Hinit.
  destruct (initial_molecules data_entry) as [|first rest] eqn:Hms.
  { simpl in Hlen. destruct (conformers molecule); [|done].
    specialize (Hgen eq_refl).
    by destruct (generate_conformers (topology molecule)). }
  eexists _, _. split; [reflexivity|]. simpl.
  pose proof (odict_get_Some_keys _ _ _ Hold) as Hin.
  split; [|split; [|split; [|split; [|split]]]].
  - exists (length h). rewrite odict_get_set_eq. split; [done|].
    split; [|done]. by apply list_lookup_middle.
  - by apply odict_set_present_keys.
  - by apply odict_set_present_length.
  - intros k Hk. by apply odict_get_set_ne.
  - intros r e Hr. by apply lookup_app_l_Some.
  - done.
Qed.

(** C8, as the code has it.  [add_molecule] by the outcome of the entry
    construction.  On a QCElemental [ValidationError] nothing is raised, no
    entry is inserted, and the molecule's SMILES is appended to the filter
    record of the stage ["QCSchemaIssues"] (created if there is none).  On
    success the entry is stored under the given index and the symbols of its
    first geometry are added to the dataset's elements.  Any other exception
    propagates and leaves the dataset as it was. *)
Theorem add_molecule_by_construction_outcome
    (i : string) (molecule : Molecule) (a : Topology) (ex : Extras)
    (kc : option ConstraintsDict) (ds : option (list torsion))
    (self : Dataset) (h : heap) :
  match DatasetEntry_init molecule i a ex kc ds with
  | Raise ValidationError =>
      ∃ self' data,
        add_molecule i molecule a ex kc ds self h = (h, self', None) ∧
        dataset self' = dataset self ∧
        metadata_elements self' = metadata_elements self ∧
        odict_get "QCSchemaIssues" (filtered_molecules self') = Some data ∧
        molecules data
        = default [] (molecules <$> odict_get "QCSchemaIssues" (filtered_molecules self))
          ++ [to_smiles (topology molecule)] ∧
        (∀ k, k ≠ "QCSchemaIssues"%string →
              odict_get k (filtered_molecules self')
              = odict_get k (filtered_molecules self))
  | Raise e => add_molecule i molecule a ex kc ds self h = (h, self, Some e)
  | Ok data_entry =>
      index data_entry = i ∧
      ∃ self',
        add_molecule i molecule a ex kc ds self h
        = (h ++ [data_entry], self',
           match initial_molecules data_entry with
           | [] => Some IndexError
           | _ => None
           end) ∧
        odict_get i (dataset self') = Some (length h) ∧
        (h ++ [data_entry]) !! length h = Some data_entry ∧
        (∀ k, k ≠ i → odict_get k (dataset self') = odict_get k (dataset self)) ∧
        metadata_elements self'
        = metadata_elements self
          ∪ match initial_molecules data_entry with
            | first :: _ => list_to_set (qc_symbols first)
            | [] => ∅
            end ∧
        filtered_molecules self' = filtered_molecules self
  end.
Proof.
  unfold add_molecule.
  destruct (DatasetEntry_init molecule i a ex kc ds) as [data_entry|e] eqn:Hinit.
  - destruct (DatasetEntry_init_Ok _ _ _ _ _ _ _ Hinit) as (Hi & _).
    split; [done|].
    destruct (initial_molecules data_entry) as [|first rest]; eexists;
      (split; [reflexivity|]); simpl; rewrite odict_get_set_eq.
    all: split; [done|]; split; [by apply list_lookup_middle|].
    all: split; [intros k Hk; by apply odict_get_set_ne|].
    all: split; [|done].
    + symmetry. apply (right_id_L ∅ (∪)).
    + done.
  - destruct e; try reflexivity.
    unfold filter_molecules.
    destruct (odict_get "QCSchemaIssues" (filtered_molecules self)) as [data|] eqn:Hget;
      eexists _, _; (split; [reflexivity|]); simpl; rewrite odict_get_set_eq.
    all: do 3 (split; [done|]).
    all: split; [done|]; intros k Hk; by apply odict_get_set_ne.
Qed.

End dataset_basics.

(** C7 at two concrete datasets of different types. *)
Lemma add_rejects_mismatched_types_witness :
  let h := [Samples.entry "a" Samples.CCO [[1; 2; 3]%float] None Samples.no_constraints;
            Samples.entry "b" Samples.CN [[4; 5]%float] None Samples.no_constraints] in
  let self := Samples.basic [("a"%string, 0)] in
  let other := Samples.optimization [("b"%string, 1)] in
  BasicDataset_add self other h = (h, Raise DatasetCombinationError) ∧
  OptimizationDataset_add self other h = (h, Raise DatasetCombinationError) ∧
  TorsiondriveDataset_add self other h = (h, Raise DatasetCombinationError) ∧
  Dataset_add self other h = (h, Raise DatasetCombinationError).
Proof.
  intros h self other. apply (add_rejects_mismatched_types self other h).
  vm_compute. discriminate.
Defined.

(** C9 at a basic dataset with two entries of one and two geometries. *)
Lemma n_records_by_class_witness :
  let e1 := Samples.entry "a" Samples.CCO [[1; 2; 3]%float] None Samples.no_constraints in
  let e2 := Samples.entry "b" Samples.CN [[4; 5]; [6; 7]]%float None Samples.no_constraints in
  n_records [e1; e2] (Samples.basic [("a"%string, 0); ("b"%string, 1)]) = Ok 3.
Proof.
  intros e1 e2.
  apply (n_records_by_class [e1; e2]
           (Samples.basic [("a"%string, 0); ("b"%string, 1)]) [e1; e2]).
  repeat constructor.
Defined.

(** C9 as stated fails for a torsiondrive dataset: one entry with two
    geometries counts as one record. *)
Lemma torsiondrive_n_records_not_geometry_count :
  let e := Samples.entry "a" Samples.CCO [[1; 2; 3]; [3; 2; 1]]%float
             (Some [(0, 1, 2, 3)]) Samples.no_constraints in
  let self := Samples.torsiondrive [("a"%string, 0)] in
  n_records [e] self = Ok 1 ∧
  n_records [e] self ≠ Ok (sum_list ((λ e, length (initial_molecules e)) <$> [e])).
Proof. intros e self. split; [reflexivity|]. vm_compute. discriminate. Qed.

(** C10 at a concrete dataset: index ["a"] is given a second molecule. *)
Lemma add_molecule_replaces_existing_index_witness :
  let old_entry :=
    Samples.entry "a" Samples.CCO [[1; 2; 3]; [3; 2; 1]]%float None Samples.no_constraints in
  let h := [old_entry] in
  let self := Samples.basic [("a"%string, 0)] in
  let molecule := Samples.molecule Samples.CN [[4; 5]%float] in
  ∃ h' self',
    add_molecule "a" molecule Samples.CN ""%string None None self h = (h', self', None) ∧
    (∃ new, odict_get "a" (dataset self') = Some new ∧
            h' !! new = Some (Samples.entry "a" Samples.CN [[4; 5]%float] None
                                Samples.no_constraints) ∧
            index (Samples.entry "a" Samples.CN [[4; 5]%float] None
                     Samples.no_constraints) = "a"%string) ∧
    odict_keys (dataset self') = odict_keys (dataset self) ∧
    length (dataset self') = length (dataset self) ∧
    (∀ k, k ≠ "a"%string → odict_get k (dataset self') = odict_get k (dataset self)) ∧
    (∀ r e, h !! r = Some e → h' !! r = Some e) ∧
    filtered_molecules self' = filtered_molecules self.
Proof.
  intros old_entry h self molecule.
  apply (add_molecule_replaces_existing_index "a" molecule Samples.CN ""%string
           None None self h 0).
  - reflexivity.
  - reflexivity.
  - vm_compute. discriminate.
Defined.

(** C8 as stated fails: a molecule whose conformer does not fit its atoms is
    recorded under ["QCSchemaIssues"], and no stage ["SchemaIssues"] exists. *)
Lemma schema_issue_not_under_SchemaIssues :
  let molecule := Samples.molecule Samples.CCO [[1; 2]%float] in
  let self' :=
    (add_molecule "a" molecule Samples.CCO ""%string None None (Samples.basic []) []).1.2 in
  DatasetEntry_init molecule "a" Samples.CCO ""%string None None = Raise ValidationError ∧
  dataset self' = [] ∧
  odict_get "SchemaIssues" (filtered_molecules self') = None ∧
  molecules <$> odict_get "QCSchemaIssues" (filtered_molecules self') = Some ["CCO"%string].
Proof.
  intros molecule self'.
  assert (Hinit : DatasetEntry_init molecule "a" Samples.CCO ""%string None None
                  = Raise ValidationError) by reflexivity.
  split; [exact Hinit|].
  unfold self', add_molecule. rewrite Hinit. cbn [fst snd].
  repeat split; reflexivity.
Qed.


(** ** Statements in the store *)
Section store_facts.
Context `{!Toolkit}.

Lemma M_bind_unfold {A B} (f : A → M B) (m : M A) (h : heap) :
  (m ≫= f) h = match m h with
               | (h', Ok a) => f a h'
               | (h', Raise e) => (h', Raise e)
               end.
Proof. reflexivity. Qed.

Lemma load_Some (h : heap) (r : loc) (e : DatasetEntry) :
  h !! r = Some e → load r h = (h, Ok e).
Proof. intros Hr. unfold load, lift, load_at. by rewrite Hr. Qed.

Lemma getitem_Some (k : string) (d : list (string * loc)) (r : loc) (h : heap) :
  odict_get k d = Some r → getitem k d h = (h, Ok r).
Proof. intros Hk. unfold getitem. by rewrite Hk. Qed.

End store_facts.

(** ** The three loops against the specified step *)
Section merge_steps.
Context `{!Toolkit}.

Lemma odict_get_NoDup {V} (d : list (string * V)) k v :
  NoDup (odict_keys d) → (k, v) ∈ d → odict_get k d = Some v.
Proof.
  induction d as [|[k' v'] d IH]; simpl.
  - by intros _ ?%elem_of_nil.
  - intros [Hnin Hnd]%NoDup_cons [[= -> ->]|Hin]%elem_of_cons.
    + by rewrite decide_True.
    + rewrite decide_False; [by apply IH|].
      intros ->. apply Hnin. apply list_elem_of_fmap. by exists (k, v).
Qed.

Lemma load_at_Some (h : heap) r e : h !! r = Some e → load_at h r = Ok e.
Proof. intros Hr. unfold load_at. by rewrite Hr. Qed.

Lemma candidates_elem h nd molecule c :
  c ∈ candidates h nd molecule ↔
  ∃ k, (k, c.1.1) ∈ nd ∧ h !! c.1.1 = Some c.1.2 ∧
       are_isomorphic molecule (attributes c.1.2) = Some c.2.
Proof.
  unfold candidates. rewrite list_elem_of_omap. split.
  - intros ([k r] & Hin & Hc). simpl in Hc.
    destruct (h !! r) as [e|] eqn:He; [|done]. simpl in Hc.
    destruct (are_isomorphic molecule (attributes e)) as [m|] eqn:Hm; [|done].
    simpl in Hc. injection Hc as <-. simpl. eauto.
  - intros (k & Hin & He & Hm). exists (k, c.1.1). split; [done|]. simpl.
    rewrite He. simpl. rewrite Hm. simpl. by destruct c as [[??]?].
Qed.

Lemma candidates_resolve h nd molecule :
  well_keyed h nd → Forall (resolves h nd molecule) (candidates h nd molecule).
Proof.
  intros [Hnd Hk]. apply Forall_forall. intros c (k & Hin & He & Hm)%candidates_elem.
  split; [|done].
  rewrite Forall_forall in Hk. destruct (Hk _ Hin) as (e & He' & Hi). simpl in *.
  assert (e = c.1.2) as -> by congruence. rewrite Hi.
  by apply odict_get_NoDup.
Qed.

Lemma get_molecule_entry_candidates h nd molecule :
  Forall (λ kr, is_Some (h !! kr.2)) nd →
  get_molecule_entry_at h nd molecule
  = Ok ((λ c : candidate, index c.1.2) <$> candidates h nd molecule).
Proof.
  intros Hv. unfold get_molecule_entry_at.
  assert (Hall : result_mapM (load_at h) (odict_values nd)
                 = Ok (omap (λ kr, h !! kr.2) nd)).
  { unfold odict_values.
    induction Hv as [|[k r] nd [e He] _ IH]; [done|].
    rewrite fmap_cons. cbn [result_mapM omap snd list_omap].
    simpl in He. rewrite (load_at_Some _ _ _ He), He. simpl. by rewrite IH. }
  rewrite Hall. simpl. f_equal. clear.
  induction nd as [|[k r] nd IH]; [done|].
  unfold candidates in *. cbn [omap list_omap snd].
  destruct (h !! r) as [e|]; simpl; [|exact IH].
  rewrite filter_cons.
  destruct (are_isomorphic molecule (attributes e)) as [m|] eqn:Hm.
  - rewrite decide_True by eauto. simpl. f_equal. exact IH.
  - rewrite decide_False by (by intros [??]). simpl. exact IH.
Qed.

Lemma opt_scan_spec entry nd h cs records :
  Forall (resolves h nd (attributes entry)) cs →
  OptimizationDataset_scan entry nd (ids cs) records h =
    match first_match (constraints_accepts entry) cs with
    | Raise e => (h, Raise e)
    | Ok (Some (cur, _, m)) =>
        (transfer_geometries (attributes entry) (Some m) (initial_molecules entry) cur
           ≫= λ _, mret None) h
    | Ok None => (h, Ok (Some (records + geometry_total cs)))
    end.
Proof.
  intros Hres. revert records.
  induction Hres as [|[[cur ce] m] cs (Hget & Hce & Hm) _ IH]; intros records.
  - simpl. unfold geometry_total. simpl. by rewrite Nat.add_0_r.
  - unfold ids. rewrite fmap_cons. cbn [OptimizationDataset_scan first_match].
    simpl in Hget, Hce, Hm.
    rewrite M_bind_unfold, (getitem_Some _ _ _ _ Hget).
    rewrite M_bind_unfold, (load_Some _ _ _ Hce).
    rewrite M_bind_unfold. unfold lift at 1. rewrite Hm.
    unfold constraints_accepts.
    destruct (remap_constraints (constraints entry) (Some m)) as [c'|e]; simpl; [|done].
    destruct (Constraints_eqb (constraints ce) c'); [done|].
    fold (ids cs). rewrite IH. unfold geometry_total. rewrite fmap_cons. simpl.
    by rewrite Nat.add_assoc.
Qed.

Lemma central_bonds_spec ds : central_bonds ds = bond_set ds.
Proof.
  unfold central_bonds, bond_set.
  assert (Hgen : ∀ (acc : gset (nat * nat)) l,
            foldl (λ acc (t : torsion), let '(_, b, c, _) := t in
                                          acc ∪ {[(b, c)]} ∪ {[(c, b)]}) acc l
            = acc ∪ list_to_set (l ≫= λ t : torsion, let '(_, b, c, _) := t in
                                                     [(b, c); (c, b)])).
  { intros acc l. revert acc. induction l as [|[[[a b] c] d] l IH]; intros acc; simpl.
    - set_solver.
    - rewrite IH. set_solver. }
  rewrite Hgen. clear Hgen.
  induction ds as [|[[[a b] c] d] l IH]; simpl; set_solver.
Qed.

Lemma mapped_central_bonds_spec m ds :
  mapped_central_bonds (Some m) ds = Ok (bond_set (remap_torsion m <$> ds)).
Proof.
  unfold mapped_central_bonds, bond_set.
  assert (Hgen : ∀ (acc : gset (nat * nat)) l,
            result_foldl (λ acc (t : torsion), let '(_, b, c, _) := t in
                            Ok (acc ∪ {[(m b, m c)]} ∪ {[(m c, m b)]})) acc l
            = Ok (acc ∪ list_to_set ((remap_torsion m <$> l)
                                       ≫= λ t : torsion, let '(_, b, c, _) := t in
                                                         [(b, c); (c, b)]))).
  { intros acc l. revert acc. induction l as [|[[[a b] c] d] l IH]; intros acc; simpl.
    - f_equal. set_solver.
    - rewrite IH. f_equal. set_solver. }
  rewrite Hgen. f_equal. set_solver.
Qed.

Lemma torsion_scan_spec entry nd h cs :
  Forall (resolves h nd (attributes entry)) cs →
  TorsiondriveDataset_scan entry nd (ids cs) h =
    match first_match (dihedrals_accepts entry) cs with
    | Raise e => (h, Raise e)
    | Ok (Some (cur, _, m)) =>
        (transfer_geometries (attributes entry) (Some m) (initial_molecules entry) cur
           ≫= λ _, mret true) h
    | Ok None => (h, Ok false)
    end.
Proof.
  induction 1 as [|[[cur ce] m] cs (Hget & Hce & Hm) _ IH].
  - done.
  - unfold ids. rewrite fmap_cons. cbn [TorsiondriveDataset_scan first_match].
    simpl in Hget, Hce, Hm.
    rewrite M_bind_unfold, (getitem_Some _ _ _ _ Hget).
    rewrite M_bind_unfold, (load_Some _ _ _ Hce).
    rewrite M_bind_unfold. unfold lift at 1.
    destruct (iter_dihedrals ce) as [cds|e] eqn:Hcds.
    2:{ assert (dihedrals_accepts entry (cur, ce, m) = Raise e) as ->
          by (unfold dihedrals_accepts; by rewrite Hcds).
        reflexivity. }
    rewrite M_bind_unfold. unfold lift at 1.
    destruct (iter_dihedrals entry) as [eds|e] eqn:Heds.
    2:{ assert (dihedrals_accepts entry (cur, ce, m) = Raise e) as ->
          by (unfold dihedrals_accepts; by rewrite Hcds, Heds).
        reflexivity. }
    assert (dihedrals_accepts entry (cur, ce, m)
            = Ok (bool_decide (bond_set cds ⊆ bond_set (remap_torsion m <$> eds)))) as ->
      by (unfold dihedrals_accepts; by rewrite Hcds, Heds).
    rewrite Hm, M_bind_unfold. unfold lift at 1.
    rewrite mapped_central_bonds_spec, central_bonds_spec.
    cbn [mbind result_bind].
    destruct (decide (bond_set cds ∖ bond_set (remap_torsion m <$> eds) = ∅)) as [He|Hne].
    + rewrite bool_decide_eq_true_2; [done|]. by apply empty_difference_subseteq_L.
    + rewrite bool_decide_eq_false_2; [by apply IH|].
      intros Hsub. by apply Hne, subseteq_empty_difference_L.
Qed.

Lemma well_keyed_valid h nd : well_keyed h nd → Forall (λ kr, is_Some (h !! kr.2)) nd.
Proof. intros [_ Hk]. eapply Forall_impl; [exact Hk|]. intros kr (e & -> & _). eauto. Qed.

Lemma store_same h r e : h !! r = Some e → store r e h = (h, Ok ()).
Proof. intros Hr. unfold store. by rewrite list_insert_id. Qed.

Lemma spec_step_unfold c nd k r h entry :
  h !! r = Some entry →
  spec_step c nd (k, r) h =
    match first_match (accepts c entry) (candidates h nd (attributes entry)) with
    | Raise e => (h, Raise e)
    | Ok (Some (cur, _, m)) =>
        (transfer_geometries (attributes entry) (Some m) (initial_molecules entry) cur
           ≫= λ _, mret nd) h
    | Ok None =>
        let '(k', e') := inserted_as c k entry (candidates h nd (attributes entry)) in
        (<[r := e']> h, Ok (odict_set k' r nd))
    end.
Proof.
  intros Hr. unfold spec_step.
  rewrite M_bind_unfold, (load_Some _ _ _ Hr).
  rewrite M_bind_unfold. unfold lift at 1.
  rewrite M_bind_unfold. unfold lift at 1.
  destruct (first_match _ _) as [[[[cur ce] m]|]|e]; [done| |done].
  by destruct (inserted_as _ _ _ _).
Qed.

Lemma basic_step_spec h nd k r entry :
  well_keyed h nd → h !! r = Some entry →
  BasicDataset_add_step nd (k, r) h = spec_step BasicDataset nd (k, r) h.
Proof.
  intros Hwk Hr. rewrite (spec_step_unfold _ _ _ _ _ _ Hr).
  unfold BasicDataset_add_step.
  rewrite M_bind_unfold, (load_Some _ _ _ Hr).
  rewrite M_bind_unfold. unfold get_molecule_entry, lift at 1.
  rewrite (get_molecule_entry_candidates _ _ _ (well_keyed_valid _ _ Hwk)).
  pose proof (candidates_resolve h nd (attributes entry) Hwk) as Hres.
  destruct (candidates h nd (attributes entry)) as [|[[cur ce] m] cs].
  - simpl. by rewrite (list_insert_id _ _ _ Hr).
  - apply Forall_cons in Hres as [(Hget & Hce & Hm) _]. simpl in Hget, Hce, Hm.
    rewrite fmap_cons. cbn [first_match accepts plain_accepts mbind result_bind].
    rewrite M_bind_unfold, (getitem_Some _ _ _ _ Hget).
    rewrite M_bind_unfold, (load_Some _ _ _ Hce).
    by rewrite Hm.
Qed.

Lemma torsion_step_spec h nd k r entry :
  well_keyed h nd → h !! r = Some entry →
  TorsiondriveDataset_add_step nd (k, r) h = spec_step TorsiondriveDataset nd (k, r) h.
Proof.
  intros Hwk Hr. rewrite (spec_step_unfold _ _ _ _ _ _ Hr).
  unfold TorsiondriveDataset_add_step.
  rewrite M_bind_unfold, (load_Some _ _ _ Hr).
  rewrite M_bind_unfold. unfold get_molecule_entry, lift at 1.
  rewrite (get_molecule_entry_candidates _ _ _ (well_keyed_valid _ _ Hwk)).
  pose proof (candidates_resolve h nd (attributes entry) Hwk) as Hres.
  rewrite M_bind_unfold. fold (ids (candidates h nd (attributes entry))).
  rewrite (torsion_scan_spec _ _ _ _ Hres). cbn [accepts].
  destruct (first_match _ _) as [[[[cur ce] m]|]|e]; [|simpl; by rewrite (list_insert_id _ _ _ Hr)|done].
  rewrite !M_bind_unfold.
  destruct (transfer_geometries _ _ _ _ h) as [h' [[]|e]]; done.
Qed.

Lemma optimization_step_spec h nd k r entry :
  well_keyed h nd → h !! r = Some entry →
  OptimizationDataset_add_step nd (k, r) h = spec_step OptimizationDataset nd (k, r) h.
Proof.
  intros Hwk Hr. rewrite (spec_step_unfold _ _ _ _ _ _ Hr).
  unfold OptimizationDataset_add_step. cbn [snd].
  rewrite M_bind_unfold, (load_Some _ _ _ Hr).
  rewrite M_bind_unfold. unfold get_molecule_entry, lift at 1.
  rewrite (get_molecule_entry_candidates _ _ _ (well_keyed_valid _ _ Hwk)).
  pose proof (candidates_resolve h nd (attributes entry) Hwk) as Hres.
  destruct (candidates h nd (attributes entry)) as [|c cs] eqn:Hcs.
  - simpl. by rewrite (list_insert_id _ _ _ Hr).
  - rewrite <- Hcs in *. 
    assert (Hne : (λ c : candidate, index c.1.2) <$> candidates h nd (attributes entry)
                  = ids (candidates h nd (attributes entry))) by done.
    rewrite Hne. 
    assert (Hids : ∃ i is', ids (candidates h nd (attributes entry)) = i :: is')
      by (rewrite Hcs; simpl; eauto).
    destruct Hids as (i & is' & Hids). rewrite Hids. rewrite <- Hids.
    rewrite M_bind_unfold, (opt_scan_spec _ _ _ _ 0 Hres). cbn [accepts].
    destruct (first_match _ _) as [[[[cur ce] m]|]|e]; [| |done].
    + rewrite !M_bind_unfold.
      destruct (transfer_geometries _ _ _ _ h) as [h' [[]|e]]; done.
    + unfold inserted_as, disambiguated_index. rewrite Hcs. rewrite <- Hcs.
      fold (geometry_total (candidates h nd (attributes entry))). simpl.
      destruct (_clean_index (index entry)) as [core tag].
      rewrite M_bind_unfold, (load_Some _ _ _ Hr).
      rewrite M_bind_unfold. by unfold store.
Qed.
Lemma set_initial_molecules_id (e : DatasetEntry) :
  set_initial_molecules (initial_molecules e) e = e.
Proof. by destruct e. Qed.

Lemma set_initial_molecules_twice (ms ms' : list QCMol) (e : DatasetEntry) :
  set_initial_molecules ms (set_initial_molecules ms' e) = set_initial_molecules ms e.
Proof. done. Qed.

Lemma transfer_geometries_spec h cur ce molecule m gs :
  h !! cur = Some ce →
  transfer_geometries molecule (Some m) gs cur h =
    if decide (initial_molecules ce = [] ∧ gs ≠ []) then (h, Raise IndexError)
    else (<[cur := set_initial_molecules
                     (fuse_geometries molecule m gs (initial_molecules ce)) ce]> h,
          Ok ()).
Proof.
  unfold transfer_geometries. revert h ce.
  induction gs as [|g gs IH]; intros h ce Hce.
  - rewrite decide_False by (by intros [_ ?]). simpl.
    by rewrite set_initial_molecules_id, list_insert_id.
  - cbn [M_foldl]. rewrite M_bind_unfold. unfold transfer_one at 1.
    rewrite M_bind_unfold, (load_Some _ _ _ Hce).
    destruct (initial_molecules ce) as [|first rest] eqn:Hms.
    { by rewrite decide_True. }
    rewrite decide_False by (by intros [? _]).
    cbn [fuse_geometries foldl].
    destruct (existsb _ (first :: rest)) eqn:Hex.
    + cbn [mret M_ret]. rewrite (IH h ce Hce), Hms.
      by rewrite decide_False by (by intros [? _]).
    + unfold store at 1.
      assert (Hlt : cur < length h) by (by eapply lookup_lt_Some).
      rewrite (IH _ (set_initial_molecules ((first :: rest) ++ [remap_to_qcschema molecule m g
                                                            (qc_extras first)]) ce)).
      2:{ by apply list_lookup_insert_eq. }
      rewrite decide_False by (by intros [? _]).
      by rewrite list_insert_insert_eq.
Qed.

Lemma first_match_none accepts (cs : list candidate) :
  first_match accepts cs = Ok None ↔ Forall (λ c, accepts c = Ok false) cs.
Proof.
  induction cs as [|c cs IH]; simpl.
  - split; [constructor|done].
  - rewrite Forall_cons, <- IH. destruct (accepts c) as [[]|e]; simpl.
    + split; [done|]. by intros [? _].
    + tauto.
    + split; [done|]. by intros [? _].
Qed.

Lemma first_match_some accepts (cs : list candidate) (c : candidate) :
  first_match accepts cs = Ok (Some c) ↔
  ∃ pre post, cs = pre ++ c :: post ∧
              Forall (λ c, accepts c = Ok false) pre ∧ accepts c = Ok true.
Proof.
  induction cs as [|c0 cs IH]; simpl.
  - split; [done|]. intros (pre & post & Heq & _). by destruct pre.
  - destruct (accepts c0) as [[]|e] eqn:Hc0; simpl.
    + split.
      * intros [= <-]. by exists [], cs.
      * intros ([|c1 pre] & post & Heq & Hpre & Hc).
        -- by injection Heq as <- _.
        -- injection Heq as <- _. apply Forall_cons in Hpre as [? _]. congruence.
    + rewrite IH. split.
      * intros (pre & post & -> & Hpre & Hc). exists (c0 :: pre), post.
        split; [done|]. split; [by constructor|done].
      * intros ([|c1 pre] & post & Heq & Hpre & Hc).
        -- injection Heq as <- _. congruence.
        -- injection Heq as <- ->. apply Forall_cons in Hpre as [_ ?]. eauto.
    + split; [done|].
      intros ([|c1 pre] & post & Heq & Hpre & Hc).
      * injection Heq as <- _. congruence.
      * injection Heq as <- _. apply Forall_cons in Hpre as [? _]. congruence.
Qed.

Lemma spec_step_fuse c h nd k r entry pre cur ce m post :
  well_keyed h nd → h !! r = Some entry →
  candidates h nd (attributes entry) = pre ++ (cur, ce, m) :: post →
  Forall (λ c0, accepts c entry c0 = Ok false) pre →
  accepts c entry (cur, ce, m) = Ok true →
  spec_step c nd (k, r) h
  = if decide (initial_molecules ce = [] ∧ initial_molecules entry ≠ [])
    then (h, Raise IndexError)
    else (<[cur := set_initial_molecules
                     (fuse_geometries (attributes entry) m (initial_molecules entry)
                        (initial_molecules ce)) ce]> h,
          Ok nd).
Proof.
  intros Hwk Hr Hcs Hpre Hc. rewrite (spec_step_unfold _ _ _ _ _ _ Hr).
  assert (Hfm : first_match (accepts c entry) (candidates h nd (attributes entry))
                = Ok (Some (cur, ce, m))).
  { apply first_match_some. by exists pre, post. }
  rewrite Hfm.
  pose proof (candidates_resolve h nd (attributes entry) Hwk) as Hres.
  rewrite Hcs in Hres. apply Forall_app in Hres as [_ Hres].
  apply Forall_cons in Hres as [(_ & Hce & _) _]. simpl in Hce.
  rewrite M_bind_unfold, (transfer_geometries_spec _ _ _ _ _ _ Hce).
  by destruct (decide _).
Qed.

Lemma spec_step_insert c h nd k r entry :
  h !! r = Some entry →
  Forall (λ c0, accepts c entry c0 = Ok false) (candidates h nd (attributes entry)) →
  spec_step c nd (k, r) h
  = let '(k', e') := inserted_as c k entry (candidates h nd (attributes entry)) in
    (<[r := e']> h, Ok (odict_set k' r nd)).
Proof.
  intros Hr Hall. rewrite (spec_step_unfold _ _ _ _ _ _ Hr).
  apply first_match_none in Hall. by rewrite Hall.
Qed.

(** The dihedral-aware step as the code has it.  The candidates are
    the existing entries with an isomorphic molecule, in dictionary order.  A
    candidate is accepted when every central bond of ITS dihedrals, in either
    direction, is among the aligned central bonds of the incoming entry (the
    existing set is a subset of the incoming one).  The geometries are fused
    into the first accepted candidate and the scan stops there, leaving the
    dictionary as it is; when no candidate is accepted the incoming entry is
    stored under its original index, whatever that index held, and the store
    is untouched. *)
Theorem torsiondrive_step_fuses_first_covered_candidate
    (h : heap) (nd : list (string * loc)) (k : string) (r : loc)
    (entry : DatasetEntry) (eds : list torsion) :
  well_keyed h nd →
  h !! r = Some entry →
  dihedrals entry = Some eds →
  let cs := candidates h nd (attributes entry) in
  let covered (c : candidate) : Prop :=
    ∃ cds, dihedrals c.1.2 = Some cds ∧
           bond_set cds ⊆ bond_set (remap_torsion c.2 <$> eds) in
  let uncovered (c : candidate) : Prop :=
    ∃ cds, dihedrals c.1.2 = Some cds ∧
           bond_set cds ⊈ bond_set (remap_torsion c.2 <$> eds) in
  (∀ pre c post,
     cs = pre ++ c :: post → Forall uncovered pre → covered c →
     TorsiondriveDataset_add_step nd (k, r) h
     = if decide (initial_molecules c.1.2 = [] ∧ initial_molecules entry ≠ [])
       then (h, Raise IndexError)
       else (<[c.1.1 := set_initial_molecules
                          (fuse_geometries (attributes entry) c.2
                             (initial_molecules entry) (initial_molecules c.1.2))
                          c.1.2]> h,
             Ok nd)) ∧
  (Forall uncovered cs →
   TorsiondriveDataset_add_step nd (k, r) h = (h, Ok (odict_set k r nd))).
Proof.
  intros Hwk Hr Heds cs covered uncovered.
  assert (Hunc : ∀ c, uncovered c → accepts TorsiondriveDataset entry c = Ok false).
  { intros [[cur ce] m] (cds & Hcds & Hsub). simpl in *.
    unfold dihedrals_accepts, iter_dihedrals. rewrite Hcds, Heds. simpl.
    by rewrite bool_decide_eq_false_2. }
  assert (Hcov : ∀ c, covered c → accepts TorsiondriveDataset entry c = Ok true).
  { intros [[cur ce] m] (cds & Hcds & Hsub). simpl in *.
    unfold dihedrals_accepts, iter_dihedrals. rewrite Hcds, Heds. simpl.
    by rewrite bool_decide_eq_true_2. }
  split.
  - intros pre [[cur ce] m] post Hcs Hpre Hc.
    rewrite (torsion_step_spec _ _ _ _ _ Hwk Hr).
    apply (spec_step_fuse _ _ _ _ _ _ pre cur ce m post Hwk Hr Hcs).
    + eapply Forall_impl; [exact Hpre|]. exact Hunc.
    + by apply Hcov.
  - intros Hall. rewrite (torsion_step_spec _ _ _ _ _ Hwk Hr).
    rewrite (spec_step_insert _ _ _ _ _ _ Hr).
    + simpl. by rewrite list_insert_id.
    + eapply Forall_impl; [exact Hall|]. exact Hunc.
Qed.

(** The constraint-aware step as the code has it.  The candidates are the
    existing entries with an isomorphic molecule.  The incoming constraints
    are rebuilt through each candidate's alignment and compared with the
    candidate's own.  When
    there are candidates and none compares equal, the incoming entry is not
    fused: it is given the index made of the root of its index, a dash and its
    tag advanced by the number of geometries the candidates hold, and stored
    under that index, no geometry list changing.  When a candidate compares
    equal, the geometries are fused into the first such candidate.  Whatever
    the outcome, an entry whose geometries changed is a candidate whose
    constraints compare equal. *)
Theorem optimization_step_keeps_unequal_constraints_apart
    (h : heap) (nd : list (string * loc)) (k : string) (r : loc)
    (entry : DatasetEntry) :
  well_keyed h nd →
  h !! r = Some entry →
  let cs := candidates h nd (attributes entry) in
  let equal (c : candidate) : Prop :=
    ∃ c', remap_constraints (constraints entry) (Some c.2) = Ok c' ∧
          Constraints_eqb (constraints c.1.2) c' = true in
  let unequal (c : candidate) : Prop :=
    ∃ c', remap_constraints (constraints entry) (Some c.2) = Ok c' ∧
          Constraints_eqb (constraints c.1.2) c' = false in
  (cs ≠ [] → Forall unequal cs →
   let new_index :=
     (_clean_index (index entry)).1 +:+ "-" +:+
     pretty ((_clean_index (index entry)).2
             + sum_list ((λ c : candidate, length (initial_molecules c.1.2)) <$> cs)) in
   OptimizationDataset_add_step nd (k, r) h
   = (<[r := set_index new_index entry]> h, Ok (odict_set new_index r nd))) ∧
  (∀ pre c post,
     cs = pre ++ c :: post → Forall unequal pre → equal c →
     OptimizationDataset_add_step nd (k, r) h
     = if decide (initial_molecules c.1.2 = [] ∧ initial_molecules entry ≠ [])
       then (h, Raise IndexError)
       else (<[c.1.1 := set_initial_molecules
                          (fuse_geometries (attributes entry) c.2
                             (initial_molecules entry) (initial_molecules c.1.2))
                          c.1.2]> h,
             Ok nd)) ∧
  (∀ h' nd' r0 e0 e0',
     OptimizationDataset_add_step nd (k, r) h = (h', Ok nd') →
     h !! r0 = Some e0 → h' !! r0 = Some e0' →
     initial_molecules e0' ≠ initial_molecules e0 →
     ∃ m, (r0, e0, m) ∈ cs ∧ equal (r0, e0, m)).
Proof.
  intros Hwk Hr cs equal unequal.
  assert (Hune : ∀ c, unequal c → accepts OptimizationDataset entry c = Ok false).
  { intros [[cur ce] m] (c' & Hc' & Heq). simpl in *.
    unfold constraints_accepts. rewrite Hc'. simpl. by rewrite Heq. }
  assert (Hequ : ∀ c, accepts OptimizationDataset entry c = Ok true ↔ equal c).
  { intros [[cur ce] m]. unfold equal. simpl. unfold constraints_accepts.
    destruct (remap_constraints (constraints entry) (Some m)) as [c'|e]; simpl.
    - split; [intros [= Heq]; eauto|]. by intros (c'' & [= <-] & ->).
    - split; [done|]. by intros (? & ? & _). }
  rewrite (optimization_step_spec _ _ _ _ _ Hwk Hr).
  split; [|split].
  - intros Hne Hall new_index.
    rewrite (spec_step_insert _ _ _ _ _ _ Hr).
    2:{ eapply Forall_impl; [exact Hall|]. exact Hune. }
    fold cs. unfold inserted_as. destruct cs as [|c0 cs0] eqn:Hcs; [done|].
    unfold disambiguated_index, geometry_total, new_index.
    by destruct (_clean_index (index entry)).
  - intros pre [[cur ce] m] post Hcs Hpre Hc.
    apply (spec_step_fuse _ _ _ _ _ _ pre cur ce m post Hwk Hr Hcs).
    + eapply Forall_impl; [exact Hpre|]. exact Hune.
    + by apply Hequ.
  - intros h' nd' r0 e0 e0' Hstep Hr0 Hr0' Hms.
    rewrite (spec_step_unfold _ _ _ _ _ _ Hr) in Hstep. fold cs in Hstep.
    destruct (first_match (accepts OptimizationDataset entry) cs)
      as [[[[cur ce] m]|]|e] eqn:Hfm; [| |done].
    + pose proof Hfm as (pre & post & Hcs & Hpre & Hc)%first_match_some.
      pose proof (candidates_resolve h nd (attributes entry) Hwk) as Hres.
      fold cs in Hres. rewrite Hcs in Hres. apply Forall_app in Hres as [_ Hres].
      apply Forall_cons in Hres as [(_ & Hce & _) _]. simpl in Hce.
      rewrite M_bind_unfold, (transfer_geometries_spec _ _ _ _ _ _ Hce) in Hstep.
      destruct (decide _); [done|]. injection Hstep as <- <-.
      destruct (decide (r0 = cur)) as [->|Hne].
      * assert (e0 = ce) as -> by congruence.
        exists m. split; [|by apply Hequ].
        rewrite Hcs. apply elem_of_app. right. apply list_elem_of_here.
      * rewrite list_lookup_insert_ne in Hr0' by done. congruence.
    + destruct (inserted_as OptimizationDataset k entry cs) as [k' e'] eqn:Hins.
      injection Hstep as <- <-.
      assert (initial_molecules e' = initial_molecules entry) as He'.
      { unfold inserted_as in Hins. destruct cs; by injection Hins as <- <-. }
      destruct (decide (r0 = r)) as [->|Hne].
      * rewrite list_lookup_insert_eq in Hr0' by (by eapply lookup_lt_Some).
        congruence.
      * rewrite list_lookup_insert_ne in Hr0' by done. congruence.
Qed.

End merge_steps.

(** The dihedral-aware step at a concrete scan: the incoming butane is numbered
    backwards, so its central bond 1-2 aligns with the existing 2-1; the
    geometry is fused. *)
Lemma torsiondrive_step_fuses_first_covered_candidate_witness :
  let existing := Samples.entry "t1" Samples.CCCC [[1; 2; 3; 4]%float]
                    (Some [(0, 1, 2, 3)]) Samples.no_constraints in
  let incoming := Samples.entry "t2" Samples.CCCC_rev [[8; 7; 6; 5]%float]
                    (Some [(0, 1, 2, 3)]) Samples.no_constraints in
  TorsiondriveDataset_add_step [("t1"%string, 0)] ("t2"%string, 1) [existing; incoming]
  = ([Samples.entry "t1" Samples.CCCC [[1; 2; 3; 4]; [5; 6; 7; 8]]%float
        (Some [(0, 1, 2, 3)]) Samples.no_constraints;
      incoming],
     Ok [("t1"%string, 0)]).
Proof.
  intros existing incoming.
  assert (Hwk : well_keyed [existing; incoming] [("t1"%string, 0)]).
  { split; [apply NoDup_singleton|]. apply Forall_singleton. by exists existing. }
  destruct (torsiondrive_step_fuses_first_covered_candidate
              [existing; incoming] [("t1"%string, 0)] "t2" 1 incoming [(0, 1, 2, 3)]
              Hwk eq_refl eq_refl) as [Hfuse _].
  rewrite (Hfuse [] (0, existing, λ i, Reference.index_of
                                         (default 0 (Reference.ranks Samples.CCCC_rev !! i))
                                         (Reference.ranks Samples.CCCC)) []).
  - reflexivity.
  - reflexivity.
  - constructor.
  - exists [(0, 1, 2, 3)]. split; [reflexivity|].
    unfold bond_set. cbn. set_solver.
Defined.

(** The constraint-aware step at a concrete scan: ethanol with another bond
    frozen arrives under the index of an entry that holds two geometries. *)
Lemma optimization_step_keeps_unequal_constraints_apart_witness :
  let existing := Samples.entry "a" Samples.CCO [[1; 2; 3]; [3; 2; 1]]%float None
                    (Samples.freeze_bond 0 1) in
  let incoming := Samples.entry "a" Samples.OCC [[4; 5; 6]%float] None
                    (Samples.freeze_bond 0 1) in
  OptimizationDataset_add_step [("a"%string, 0)] ("a"%string, 1) [existing; incoming]
  = ([existing; set_index "a-2" incoming], Ok [("a"%string, 0); ("a-2"%string, 1)]).
Proof.
  intros existing incoming.
  assert (Hwk : well_keyed [existing; incoming] [("a"%string, 0)]).
  { split; [apply NoDup_singleton|]. apply Forall_singleton. by exists existing. }
  destruct (optimization_step_keeps_unequal_constraints_apart
              [existing; incoming] [("a"%string, 0)] "a" 1 incoming
              Hwk eq_refl) as [Hnew _].
  rewrite Hnew.
  - reflexivity.
  - discriminate.
  - apply Forall_singleton. eexists. split; [reflexivity|]. by vm_compute.
Defined.

(** C3 fails on the code.  Pentane is held under ["t1"] with a scan about the
    bond 1-2; the same pentane arrives under ["t2"] with a scan about the
    two bonds 1-2 and 2-3 (the atom map is the identity).  The incoming
    central bonds are not among the existing ones, so the entry should be
    inserted as a new entry; the code tests the inclusion the other way round,
    fuses the geometry into ["t1"] and the scan about two bonds is gone.  And
    when no entry matches, the incoming entry is stored by a plain assignment
    under its index: pentane scanned about 2-3 arriving under the index
    ["t1"] of pentane scanned about 1-2 replaces that entry, where a new
    entry was to be inserted. *)
Lemma torsiondrive_add_fuses_wider_scan :
  (let existing := Samples.entry "t1" Samples.CCCCC [[1; 2; 3; 4; 5]%float]
                     (Some [(0, 1, 2, 3)]) Samples.no_constraints in
   let incoming := Samples.entry "t2" Samples.CCCCC [[9; 8; 7; 6; 5]%float]
                     (Some [(0, 1, 2, 3); (1, 2, 3, 4)]) Samples.no_constraints in
   let h := [existing; incoming] in
   let self := Samples.torsiondrive [("t1"%string, 0)] in
   let other := Samples.torsiondrive [("t2"%string, 1)] in
   let after := TorsiondriveDataset_add self other h in
   (λ mapping : AtomMap, mapping <$> [0; 1; 2; 3; 4])
     <$> are_isomorphic (attributes incoming) (attributes existing)
   = Some [0; 1; 2; 3; 4] ∧
   bond_set [(0, 1, 2, 3); (1, 2, 3, 4)] ⊈ bond_set [(0, 1, 2, 3)] ∧
   (after.2 ≫= λ r, Ok (dataset r)) = Ok [("t1"%string, 2)] ∧
   (λ e, (dihedrals e, length (initial_molecules e))) <$> after.1 !! 2
   = Some (Some [(0, 1, 2, 3)], 2)) ∧
  (let existing := Samples.entry "t1" Samples.CCCCC [[1; 2; 3; 4; 5]%float]
                     (Some [(0, 1, 2, 3)]) Samples.no_constraints in
   let incoming := Samples.entry "t1" Samples.CCCCC [[9; 8; 7; 6; 5]%float]
                     (Some [(1, 2, 3, 4)]) Samples.no_constraints in
   let h := [existing; incoming] in
   let self := Samples.torsiondrive [("t1"%string, 0)] in
   let other := Samples.torsiondrive [("t1"%string, 1)] in
   let after := TorsiondriveDataset_add self other h in
   bond_set [(1, 2, 3, 4)] ⊈ bond_set [(0, 1, 2, 3)] ∧
   bond_set [(0, 1, 2, 3)] ⊈ bond_set [(1, 2, 3, 4)] ∧
   (after.2 ≫= λ r, Ok (dataset r)) = Ok [("t1"%string, 1)] ∧
   (λ e, (dihedrals e, length (initial_molecules e))) <$> after.1 !! 1
   = Some (Some [(1, 2, 3, 4)], 1)).
Proof.
  split; repeat split; try (vm_compute; reflexivity).
  all: unfold bond_set; cbn; set_solver.
Qed.

(** C4 fails on the code.  The index given to an entry that matched molecules
    but no constraints is not checked against the indices in use, and the
    entry is stored by a plain assignment.  The dataset holds ethanol under
    ["b"] (one geometry, 0-1 frozen) and under ["a-3"] (two geometries, 1-2
    frozen); ethanol with 0-2 frozen arrives under ["a"].  Its constraints
    equal neither candidate's, the candidates hold three geometries, so it is
    given the index ["a-3"] and takes the place of the entry stored there:
    the result has two entries, not three, and two geometries where the
    dataset alone had three.  The rest of the claim holds: ethanol arriving in
    another atom order with the bond frozen that aligns with the kept entry's
    frozen bond is fused into that entry. *)
Lemma optimization_add_overwrites_index_in_use :
  (let eb := Samples.entry "b" Samples.CCO [[1; 2; 3]%float] None
               (Samples.freeze_bond 0 1) in
   let ea3 := Samples.entry "a-3" Samples.CCO [[4; 5; 6]; [7; 8; 9]]%float None
                (Samples.freeze_bond 1 2) in
   let ea := Samples.entry "a" Samples.CCO [[3; 2; 1]%float] None
               (Samples.freeze_bond 0 2) in
   let h := [eb; ea3; ea] in
   let self := Samples.optimization [("b"%string, 0); ("a-3"%string, 1)] in
   let other := Samples.optimization [("a"%string, 2)] in
   let after := OptimizationDataset_add self other h in
   (λ c : candidate, index c.1.2) <$> candidates h (dataset self) (attributes ea)
   = ["b"; "a-3"]%string ∧
   Forall (λ c, constraints_accepts ea c = Ok false)
     (candidates h (dataset self) (attributes ea)) ∧
   (after.2 ≫= λ r, Ok (dataset r)) = Ok [("b"%string, 3); ("a-3"%string, 2)] ∧
   (λ e, (index e, length (initial_molecules e))) <$> after.1 !! 2
   = Some ("a-3"%string, 1) ∧
   BasicDataset_n_records h self = Ok 3 ∧
   (after.2 ≫= BasicDataset_n_records after.1) = Ok 2) ∧
  (let kept := Samples.entry "a" Samples.CCO [[1; 2; 3]%float] None
                 (Samples.freeze_bond 0 1) in
   let incoming := Samples.entry "x" Samples.OCC [[6; 4; 5]%float] None
                     (Samples.freeze_bond 1 2) in
   let h := [kept; incoming] in
   let self := Samples.optimization [("a"%string, 0)] in
   let other := Samples.optimization [("x"%string, 1)] in
   let after := OptimizationDataset_add self other h in
   (after.2 ≫= λ r, Ok (dataset r)) = Ok [("a"%string, 2)] ∧
   initial_molecules <$> after.1 !! 2
   = Some [Samples.geom Samples.CCO [1; 2; 3]%float;
           Samples.geom Samples.CCO [4; 5; 6]%float]).
Proof.
  split.
  - split; [vm_compute; reflexivity|].
    split; [|repeat split; vm_compute; reflexivity].
    repeat constructor; vm_compute; reflexivity.
  - repeat split; vm_compute; reflexivity.
Qed.

(** C2 fails on the code: the right-hand dataset's entries are stored by
    reference and mutated.  The constraint-aware merge renames the incoming
    entry in place; the plain merge appends to an entry of [other] that it
    inserted a moment before. *)
Lemma add_mutates_other :
  (let existing := Samples.entry "a" Samples.CCO [[1; 2; 3]; [3; 2; 1]]%float None
                     (Samples.freeze_bond 0 1) in
   let incoming := Samples.entry "a" Samples.OCC [[4; 5; 6]%float] None
                     (Samples.freeze_bond 0 1) in
   let h := [existing; incoming] in
   let self := Samples.optimization [("a"%string, 0)] in
   let other := Samples.optimization [("a"%string, 1)] in
   let after := OptimizationDataset_add self other h in
   (after.2 ≫= λ r, Ok (dataset r)) = Ok [("a"%string, 2); ("a-2"%string, 1)] ∧
   index <$> h !! 1 = Some "a"%string ∧
   index <$> after.1 !! 1 = Some "a-2"%string) ∧
  (let first := Samples.entry "a" Samples.CCO [[1; 2; 3]%float] None
                  Samples.no_constraints in
   let second := Samples.entry "b" Samples.OCC [[6; 4; 5]%float] None
                   Samples.no_constraints in
   let h := [first; second] in
   let self := Samples.basic [] in
   let other := Samples.basic [("a"%string, 0); ("b"%string, 1)] in
   let after := BasicDataset_add self other h in
   (after.2 ≫= λ r, Ok (dataset r)) = Ok [("a"%string, 0)] ∧
   (λ e, length (initial_molecules e)) <$> h !! 0 = Some 1 ∧
   (λ e, length (initial_molecules e)) <$> after.1 !! 0 = Some 2).
Proof. repeat split; vm_compute; reflexivity. Qed.

(** * Further properties of the module *)

Lemma size_list_to_set_le (l : list string) :
  size (list_to_set l : gset string) ≤ length l.
Proof.
  induction l as [|x l IH]; simpl.
  - done.
  - rewrite size_union_alt, size_singleton.
    assert (size (list_to_set l ∖ {[x]} : gset string) ≤ size (list_to_set l : gset string)).
    { apply subseteq_size. set_solver. }
    lia.
Qed.

(** ** ComponentResult: what the container keeps *)
Section component_result_more.
Context `{!Toolkit}.

Lemma transfer_conformers_prefix n mapping incoming kept :
  ∃ more, (transfer_conformers n mapping incoming kept).1 = kept ++ more.
Proof.
  revert kept. induction incoming as [|c cs IH]; intros kept; simpl.
  - exists []. by rewrite app_nil_r.
  - destruct (remap_conformer n mapping c) as [c'|]; simpl.
    + destruct (IH (add_conformer_if_new kept c')) as [more Hmore]. rewrite Hmore.
      unfold add_conformer_if_new. destruct (conformer_present c' kept).
      * by exists more.
      * exists (c' :: more). by rewrite <- app_assoc.
    + exists []. by rewrite app_nil_r.
Qed.

Lemma add_molecule_grows molecule self :
  let key := to_inchikey (topology molecule) in
  let self' := (ComponentResult_add_molecule molecule self).1 in
  _filtered self' = _filtered self ∧
  dom (_molecules self') = dom (_molecules self) ∪ {[ key ]} ∧
  (∀ k current, _molecules self !! k = Some current →
     ∃ current', _molecules self' !! k = Some current' ∧
                 topology current' = topology current ∧
                 ∃ more, conformers current' = conformers current ++ more) ∧
  (_molecules self !! key = None → _molecules self' !! key = Some molecule).
Proof.
  intros key self'. unfold self', ComponentResult_add_molecule. fold key.
  destruct (_molecules self !! key) as [current|] eqn:Hkey.
  - assert (Hin : key ∈ dom (_molecules self)) by (apply elem_of_dom; eauto).
    destruct (are_isomorphic (topology molecule) (topology current)) as [mapping|].
    + destruct (transfer_conformers_prefix (n_atoms (topology molecule)) mapping
                  (conformers molecule) (conformers current)) as [more Hmore].
      assert (Hc : ∀ c0 : Molecule, conformers c0 = conformers current →
                 (transfer_conformers (n_atoms (topology molecule)) mapping
                    (conformers molecule) (conformers c0)).1
                 = conformers current ++ more) by (by intros c0 ->).
      destruct (properties_dihedrals molecule) as [indexer|]; cbn [conformers topology].
      all: destruct (transfer_conformers _ _ _ _) as [confs raised] eqn:Htr.
      all: simpl in Hmore; subst confs; cbn [fst _filtered _molecules].
      all: split; [done|]; split; [rewrite dom_insert_L; set_solver|].
      all: split; [|done].
      all: intros k cur Hk; destruct (decide (k = key)) as [->|Hne].
      all: try (rewrite lookup_insert_eq; rewrite Hkey in Hk; injection Hk as <-;
                eexists; split; [done|]; split; [done|]; by exists more).
      all: rewrite lookup_insert_ne by done; exists cur; split; [done|];
           split; [done|]; exists []; by rewrite app_nil_r.
    + cbn [fst]. split; [done|]. split; [set_solver|]. split; [|done].
      intros k cur Hk. exists cur. split; [done|]. split; [done|].
      exists []. by rewrite app_nil_r.
  - cbn [fst _filtered _molecules]. split; [done|].
    split; [rewrite dom_insert_L; set_solver|]. split.
    + intros k cur Hk. assert (k ≠ key) by congruence.
      rewrite lookup_insert_ne by done. exists cur. split; [done|]. split; [done|].
      exists []. by rewrite app_nil_r.
    + intros _. by rewrite lookup_insert_eq.
Qed.

Lemma add_molecules_grows molecules self :
  let self' := (add_molecules molecules self).1 in
  _filtered self' = _filtered self ∧
  (∀ k current, _molecules self !! k = Some current →
     ∃ current', _molecules self' !! k = Some current' ∧
                 topology current' = topology current ∧
                 ∃ more, conformers current' = conformers current ++ more).
Proof.
  revert self. induction molecules as [|m ms IH]; intros self; simpl.
  - split; [done|]. intros k cur Hk. exists cur. split; [done|]. split; [done|].
    exists []. by rewrite app_nil_r.
  - destruct (add_molecule_grows m self) as (Hf & _ & Hg & _).
    destruct (ComponentResult_add_molecule m self) as [self1 [e|]]; simpl in *.
    + by split.
    + destruct (IH self1) as (Hf' & Hg'). split; [congruence|].
      intros k cur Hk. destruct (Hg k cur Hk) as (c1 & Hk1 & Ht1 & more1 & Hc1).
      destruct (Hg' k c1 Hk1) as (c2 & Hk2 & Ht2 & more2 & Hc2).
      exists c2. split; [done|]. split; [congruence|].
      exists (more1 ++ more2). by rewrite Hc2, Hc1, app_assoc.
Qed.

Lemma add_molecules_dom molecules self self' :
  add_molecules molecules self = (self', None) →
  dom (_molecules self')
  = dom (_molecules self) ∪ list_to_set ((λ m, to_inchikey (topology m)) <$> molecules).
Proof.
  revert self. induction molecules as [|m ms IH]; intros self; simpl.
  - intros [= <-]. set_solver.
  - destruct (add_molecule_grows m self) as (_ & Hd & _).
    destruct (ComponentResult_add_molecule m self) as [self1 [e|]]; [done|].
    intros Hrest. rewrite (IH _ Hrest). simpl in Hd. rewrite Hd. set_solver.
Qed.

(** X1.  A container built from a list of molecules without an exception has
    filtered nothing, keeps exactly the InChIKeys of the list (so never more
    molecules than the list has), and under each key keeps the molecule that
    came first with that key: its topology (atom order) is retained and its
    conformers are a prefix of the kept ones. *)
Theorem init_keeps_first_occurrence (molecules : list Molecule) (self' : ComponentResult) :
  ComponentResult_init (Some molecules) = (self', None) →
  _filtered self' = ∅ ∧
  dom (_molecules self')
  = list_to_set ((λ m, to_inchikey (topology m)) <$> molecules) ∧
  ComponentResult_n_molecules self' ≤ length molecules ∧
  (∀ pre m post,
     molecules = pre ++ m :: post →
     to_inchikey (topology m) ∉ (λ m, to_inchikey (topology m)) <$> pre →
     ∃ kept, _molecules self' !! to_inchikey (topology m) = Some kept ∧
             topology kept = topology m ∧
             ∃ more, conformers kept = conformers m ++ more).
Proof.
  unfold ComponentResult_init. set (self0 := {| _molecules := ∅; _filtered := ∅ |}).
  intros Hrun.
  pose proof (add_molecules_grows molecules self0) as [Hf _].
  rewrite Hrun in Hf. simpl in Hf.
  pose proof (add_molecules_dom _ _ _ Hrun) as Hd. simpl in Hd.
  rewrite dom_empty_L, (left_id_L ∅ (∪)) in Hd.
  split; [done|]. split; [done|]. split.
  - unfold ComponentResult_n_molecules. rewrite <- size_dom, Hd.
    etrans; [apply size_list_to_set_le|]. by rewrite length_fmap.
  - intros pre m post -> Hfresh.
    (* run the prefix, then m, then the rest *)
    assert (Hsplit : ∀ l1 l2 s s2,
              add_molecules (l1 ++ l2) s = (s2, None) →
              ∃ s1, add_molecules l1 s = (s1, None) ∧ add_molecules l2 s1 = (s2, None)).
    { induction l1 as [|x l1 IH1]; intros l2 s s2; simpl.
      - intros ?. by exists s.
      - destruct (ComponentResult_add_molecule x s) as [s1 [e|]]; [done|]. apply IH1. }
    destruct (Hsplit pre (m :: post) self0 self' Hrun) as (s1 & Hpre & Hrest).
    pose proof (add_molecules_dom _ _ _ Hpre) as Hd1. simpl in Hd1.
    rewrite dom_empty_L, (left_id_L ∅ (∪)) in Hd1.
    assert (Hnone : _molecules s1 !! to_inchikey (topology m) = None).
    { apply not_elem_of_dom. rewrite Hd1. by rewrite elem_of_list_to_set. }
    simpl in Hrest.
    destruct (add_molecule_grows m s1) as (_ & _ & _ & Hnew).
    destruct (ComponentResult_add_molecule m s1) as [s2 [e|]]; [done|].
    simpl in Hnew. specialize (Hnew Hnone).
    pose proof (add_molecules_grows post s2) as [_ Hg]. rewrite Hrest in Hg.
    simpl in Hg. destruct (Hg _ _ Hnew) as (kept & Hk & Ht & more & Hc). eauto.
Qed.

(** X2.  [filter_molecule] removes the molecule's key from the kept map
    (whether or not it was there), records the molecule under that key in the
    filtered map, touches no other key, and filtering the same molecule again
    changes nothing. *)
Theorem filter_molecule_moves_key (molecule : Molecule) (self : ComponentResult) :
  let key := to_inchikey (topology molecule) in
  let self' := ComponentResult_filter_molecule molecule self in
  _molecules self' !! key = None ∧
  _filtered self' !! key = Some molecule ∧
  (∀ k, k ≠ key → _molecules self' !! k = _molecules self !! k ∧
                  _filtered self' !! k = _filtered self !! k) ∧
  ComponentResult_filter_molecule molecule self' = self'.
Proof.
  intros key self'. unfold self', ComponentResult_filter_molecule. fold key. simpl.
  split; [apply lookup_delete_eq|]. split; [apply lookup_insert_eq|]. split.
  - intros k Hk. by rewrite lookup_delete_ne, lookup_insert_ne.
  - f_equal.
    + apply map_eq. intros k. destruct (decide (k = key)) as [->|Hne].
      * by rewrite !lookup_delete_eq.
      * by rewrite !lookup_delete_ne.
    + by rewrite insert_insert_eq.
Qed.

(** X3.  Whatever [add_molecule] does (also when it raises), it leaves the
    filtered map alone, the kept keys afterwards are the old ones and the
    molecule's key, every molecule kept before is still kept with the same
    topology and with its conformers as a prefix of the new list, and a
    molecule with a new key is stored as given. *)
Theorem add_molecule_never_drops (molecule : Molecule) (self : ComponentResult) :
  let key := to_inchikey (topology molecule) in
  let self' := (ComponentResult_add_molecule molecule self).1 in
  _filtered self' = _filtered self ∧
  dom (_molecules self') = dom (_molecules self) ∪ {[ key ]} ∧
  (∀ k current, _molecules self !! k = Some current →
     ∃ current', _molecules self' !! k = Some current' ∧
                 topology current' = topology current ∧
                 ∃ more, conformers current' = conformers current ++ more) ∧
  (_molecules self !! key = None → _molecules self' !! key = Some molecule).
Proof. apply add_molecule_grows. Qed.

(** X4.  Adding a molecule whose key is already kept: when the isomorphism
    oracle finds no atom map the call raises [AssertionError] and changes
    nothing; when the molecule has no conformers nothing is raised and the
    kept conformers stay as they are, and without dihedral metadata the
    container is unchanged altogether. *)
Theorem add_molecule_duplicate_edge_cases
    (molecule current : Molecule) (self : ComponentResult) :
  _molecules self !! to_inchikey (topology molecule) = Some current →
  (are_isomorphic (topology molecule) (topology current) = None →
   ComponentResult_add_molecule molecule self = (self, Some AssertionError)) ∧
  (is_Some (are_isomorphic (topology molecule) (topology current)) →
   conformers molecule = [] →
   ∃ self' kept,
     ComponentResult_add_molecule molecule self = (self', None) ∧
     _molecules self' !! to_inchikey (topology molecule) = Some kept ∧
     topology kept = topology current ∧
     conformers kept = conformers current ∧
     (properties_dihedrals molecule = None → self' = self)).
Proof.
  intros Hkey. unfold ComponentResult_add_molecule. rewrite Hkey. split.
  - by intros ->.
  - intros [mapping ->] Hnone. rewrite Hnone.
    destruct (properties_dihedrals molecule) as [indexer|]; simpl.
    + eexists _, _. split; [done|]. simpl. rewrite lookup_insert_eq.
      split; [done|]. split; [done|]. split; [done|]. done.
    + eexists _, _. split; [done|]. simpl. rewrite lookup_insert_eq.
      split; [done|]. split; [done|]. split; [done|]. intros _.
      destruct self as [ms fs]. simpl in *. f_equal.
      apply insert_id. rewrite Hkey. by destruct current.
Qed.

Lemma n_conformers_insert_fresh (m : gmap string Molecule) k x :
  m !! k = None →
  map_fold (λ _ molecule acc, length (conformers molecule) + acc) 0 (<[k := x]> m)
  = length (conformers x)
    + map_fold (λ _ molecule acc, length (conformers molecule) + acc) 0 m.
Proof.
  intros Hk.
  apply (map_fold_insert_L (λ _ (molecule : Molecule) acc,
                              length (conformers molecule) + acc)); [|done].
  intros. lia.
Qed.

(** X5.  The derived counts under [add_molecule]: [n_filtered] is unchanged,
    [n_molecules] and [n_conformers] never decrease; a molecule with a new
    key raises nothing and adds one molecule and all its conformers; a
    molecule with a kept key leaves [n_molecules] as it is. *)
Theorem add_molecule_counts (molecule : Molecule) (self : ComponentResult) :
  let key := to_inchikey (topology molecule) in
  let '(self', raised) := ComponentResult_add_molecule molecule self in
  ComponentResult_n_filtered self' = ComponentResult_n_filtered self ∧
  ComponentResult_n_molecules self ≤ ComponentResult_n_molecules self' ∧
  ComponentResult_n_conformers self ≤ ComponentResult_n_conformers self' ∧
  (_molecules self !! key = None →
   raised = None ∧
   ComponentResult_n_molecules self' = S (ComponentResult_n_molecules self) ∧
   ComponentResult_n_conformers self'
   = ComponentResult_n_conformers self + length (conformers molecule)) ∧
  (is_Some (_molecules self !! key) →
   ComponentResult_n_molecules self' = ComponentResult_n_molecules self).
Proof.
  intros key.
  pose proof (add_molecule_grows molecule self) as (Hf & Hd & Hg & Hnew).
  destruct (ComponentResult_add_molecule molecule self) as [self' raised] eqn:Hadd.
  simpl in Hf, Hd, Hg, Hnew. fold key in Hd, Hnew.
  unfold ComponentResult_n_filtered, ComponentResult_n_molecules,
    ComponentResult_n_conformers.
  assert (Hsize : ∀ X : ComponentResult, size (_molecules X) = size (dom (_molecules X)))
    by (intros; by rewrite size_dom).
  split; [by rewrite Hf|].
  destruct (_molecules self !! key) as [current|] eqn:Hkey.
  - assert (Hdom : dom (_molecules self') = dom (_molecules self)).
    { rewrite Hd. assert (key ∈ dom (_molecules self)) by (apply elem_of_dom; eauto).
      set_solver. }
    split; [by rewrite !Hsize, Hdom|]. split.
    + destruct (Hg key current Hkey) as (current' & Hk' & _ & more & Hc).
      rewrite <- (insert_id _ _ _ Hkey), <- (insert_id _ _ _ Hk').
      rewrite <- (insert_delete_eq (_molecules self)),
              <- (insert_delete_eq (_molecules self')).
      rewrite !n_conformers_insert_fresh by apply lookup_delete_eq.
      assert (Hrest : delete key (_molecules self') = delete key (_molecules self)).
      { revert Hadd. unfold ComponentResult_add_molecule. fold key. rewrite Hkey.
        destruct (are_isomorphic _ _); [|by intros [= <- _]].
        destruct (transfer_conformers _ _ _ _). intros [= <- _]. simpl.
        by rewrite delete_insert_eq. }
      rewrite Hrest, Hc, length_app. lia.
    + split; [done|]. intros _. by rewrite !Hsize, Hdom.
  - specialize (Hnew eq_refl).
    revert Hadd. unfold ComponentResult_add_molecule. fold key. rewrite Hkey.
    intros [= <- <-]. simpl.
    rewrite (map_size_insert_None _ _ _ Hkey), (n_conformers_insert_fresh _ _ _ Hkey).
    split; [lia|]. split; [lia|]. split; [|by intros [??]].
    intros _. split; [done|]. split; [done|]. lia.
Qed.
End component_result_more.

(** X1 at three molecules, two of them ethanol. *)
Lemma init_keeps_first_occurrence_witness :
  let molecules := [Samples.molecule Samples.CCO [[1; 2; 3]%float];
                    Samples.molecule Samples.OCC [[2; 3; 1]; [5; 6; 4]]%float;
                    Samples.molecule Samples.CN [[7; 8]%float]] in
  let self' := (ComponentResult_init (Some molecules)).1 in
  _filtered self' = ∅ ∧
  dom (_molecules self')
  = list_to_set ((λ m, to_inchikey (topology m)) <$> molecules) ∧
  ComponentResult_n_molecules self' ≤ length molecules ∧
  (∀ pre m post,
     molecules = pre ++ m :: post →
     to_inchikey (topology m) ∉ (λ m, to_inchikey (topology m)) <$> pre →
     ∃ kept, _molecules self' !! to_inchikey (topology m) = Some kept ∧
             topology kept = topology m ∧
             ∃ more, conformers kept = conformers m ++ more).
Proof.
  intros molecules self'.
  apply (init_keeps_first_occurrence molecules self').
  assert (Hnone : (ComponentResult_init (Some molecules)).2 = None)
    by (vm_compute; reflexivity).
  unfold self'. destruct (ComponentResult_init (Some molecules)) as [s r].
  simpl in *. by subst.
Defined.

(** X4 at ethanol added again without conformers. *)
Lemma add_molecule_duplicate_edge_cases_witness :
  let current := Samples.molecule Samples.CCO [[1; 2; 3]%float] in
  let molecule := Samples.molecule Samples.OCC [] in
  let self := {| _molecules := {[ "CCO"%string := current ]}; _filtered := ∅ |} in
  ∃ self' kept,
    ComponentResult_add_molecule molecule self = (self', None) ∧
    _molecules self' !! "CCO"%string = Some kept ∧
    topology kept = topology current ∧
    conformers kept = conformers current ∧
    (properties_dihedrals molecule = None → self' = self).
Proof.
  intros current molecule self.
  apply (add_molecule_duplicate_edge_cases molecule current self).
  - reflexivity.
  - eexists. reflexivity.
  - reflexivity.
Defined.

(** ** Datasets: the ledger, construction and counting *)
Lemma sum_list_cons (x : nat) l : sum_list (x :: l) = x + sum_list l.
Proof. reflexivity. Qed.

Section odict_more.
Context {V : Type}.
Implicit Types (d : list (string * V)) (k : string) (v : V).

Lemma odict_set_sum (f : V → nat) k v d :
  sum_list (f <$> odict_values (odict_set k v d)) + default 0 (f <$> odict_get k d)
  = sum_list (f <$> odict_values d) + f v.
Proof.
  unfold odict_values.
  induction d as [|[k' v'] d IH]; [simpl; lia|].
  cbn [odict_set odict_get].
  destruct (decide (k' = k)) as [->|Hne]; rewrite !fmap_cons, !sum_list_cons; cbn [snd];
    [simpl; lia|].
  rewrite <- !Nat.add_assoc. by rewrite IH.
Qed.

Lemma odict_set_length k v d :
  length (odict_set k v d) = length d + match odict_get k d with Some _ => 0 | None => 1 end.
Proof.
  induction d as [|[k' v'] d IH]; simpl; [done|].
  destruct (decide (k' = k)) as [->|Hne]; simpl; [lia|]. by rewrite IH.
Qed.

Lemma odict_set_keys_NoDup k v d :
  NoDup (odict_keys d) → NoDup (odict_keys (odict_set k v d)).
Proof.
  intros Hnd. destruct (decide (k ∈ odict_keys d)) as [Hin|Hnin].
  - by rewrite odict_set_present_keys.
  - rewrite odict_set_fresh by done. unfold odict_keys in *.
    rewrite fmap_app. simpl. apply NoDup_app. split; [done|].
    split; [|apply NoDup_singleton].
    intros x Hx ->%list_elem_of_singleton. done.
Qed.

Lemma odict_set_elem k v d kv :
  kv ∈ odict_set k v d → kv = (k, v) ∨ kv ∈ d.
Proof.
  induction d as [|[k' v'] d IH]; simpl.
  - intros ->%list_elem_of_singleton. by left.
  - destruct (decide (k' = k)) as [->|Hne].
    + intros [->|Hin]%elem_of_cons; [by left|]. right. by apply list_elem_of_further.
    + intros [->|Hin]%elem_of_cons; [right; apply list_elem_of_here|].
      destruct (IH Hin) as [->|?]; [by left|]. right. by apply list_elem_of_further.
Qed.

End odict_more.

Section dataset_more.
Context `{!Toolkit}.

(** X6.  [filter_molecules] touches nothing but the ledger.  The stage record
    of [component_name] afterwards holds the SMILES it held before followed by
    the SMILES of the given molecules, in order; for a stage already in the
    ledger the description and provenance passed in are ignored, for a new
    stage they are stored.  No other stage changes, [n_filtered] grows by the
    number of molecules given, and [n_components] grows by one exactly when
    the stage is new. *)
Theorem filter_molecules_ledger (mols : list Molecule) (name : string)
    (description prov : list (string * string)) (self : Dataset) :
  let self' := filter_molecules mols name description prov self in
  dataset self' = dataset self ∧
  metadata_elements self' = metadata_elements self ∧
  (∃ data,
     odict_get name (filtered_molecules self') = Some data ∧
     molecules data
     = default [] (molecules <$> odict_get name (filtered_molecules self))
       ++ ((λ m, to_smiles (topology m)) <$> mols) ∧
     match odict_get name (filtered_molecules self) with
     | Some old =>
         component_name data = component_name old ∧
         component_description data = component_description old ∧
         component_provenance data = component_provenance old
     | None =>
         component_name data = name ∧
         component_description data = description ∧
         component_provenance data = prov
     end) ∧
  (∀ k, k ≠ name →
        odict_get k (filtered_molecules self') = odict_get k (filtered_molecules self)) ∧
  BasicDataset_n_filtered self' = BasicDataset_n_filtered self + length mols ∧
  BasicDataset_n_components self'
  = BasicDataset_n_components self
    + match odict_get name (filtered_molecules self) with Some _ => 0 | None => 1 end.
Proof.
  intros self'. subst self'. unfold filter_molecules.
  unfold BasicDataset_n_filtered, BasicDataset_n_components.
  pose proof (odict_set_sum (λ data, length (molecules data)) name) as Hsum.
  pose proof (odict_set_length (V:=FilterEntry) name) as Hlen.
  destruct (odict_get name (filtered_molecules self)) as [old|] eqn:Hget;
    cbn [dataset metadata_elements filtered_molecules set_filtered_molecules
         component_name].
  - split; [done|]. split; [done|]. split.
    { eexists. rewrite odict_get_set_eq. split; [done|]. by simpl. }
    split; [intros k Hk; by apply odict_get_set_ne|].
    split.
    + specialize (Hsum (extend_molecules ((λ m, to_smiles (topology m)) <$> mols) old)
                       (filtered_molecules self)).
      rewrite Hget in Hsum. simpl in Hsum. rewrite length_app, length_fmap in Hsum. lia.
    + rewrite Hlen, Hget. done.
  - split; [done|]. split; [done|]. split.
    { eexists. rewrite odict_get_set_eq. split; [done|]. by simpl. }
    split; [intros k Hk; by apply odict_get_set_ne|].
    split.
    + match goal with |- context [odict_set name ?v _] =>
        specialize (Hsum v (filtered_molecules self)) end.
      rewrite Hget in Hsum. simpl in Hsum. rewrite length_fmap in Hsum. lia.
    + rewrite Hlen, Hget. done.
Qed.

Lemma mapM_check_dihedral {A} molecule (ds : list torsion) (k : result A) :
  (result_mapM (check_dihedral molecule) ds ≫= λ _, k)
  = match list_find (λ t, Is_true (torsion_rejected molecule t)) ds with
    | Some (_, t) =>
        Raise (default DihedralConnectionError (check_linear_torsions t molecule))
    | None => k
    end.
Proof.
  induction ds as [|t ds IH]; [done|].
  cbn [result_mapM list_find].
  assert (Hcase : check_dihedral molecule t
                  = if torsion_rejected molecule t
                    then Raise (default DihedralConnectionError
                                  (check_linear_torsions t molecule))
                    else Ok ()).
  { unfold check_dihedral, torsion_rejected, check.
    destruct (check_linear_torsions t molecule) as [e|]; simpl.
    - done.
    - by destruct (check_torsion_connection t molecule),
                  (check_improper_connection t molecule). }
  rewrite Hcase. destruct (torsion_rejected molecule t) eqn:Hrej; simpl.
  - done.
  - revert IH.
    by destruct (list_find _ ds) as [[j t']|], (result_mapM _ ds).
Qed.

(** X7.  [DatasetEntry.__init__] checks the torsions last.  With torsions
    given it fails as it would without them when any earlier stage fails;
    otherwise the first torsion, in the order given, that is linear or is
    neither a proper nor an improper torsion decides: it raises what the
    linearity check raised, or [DihedralConnectionError]; a torsion that is
    only an improper one is accepted.  With no such torsion the entry is the
    one built without torsions, carrying them. *)
Theorem init_checks_torsions_last
    (molecule : Molecule) (i : string) (a : Topology) (ex : Extras)
    (kc : option ConstraintsDict) (ds : list torsion) :
  DatasetEntry_init molecule i a ex kc (Some ds)
  = (e ← DatasetEntry_init molecule i a ex kc None;
     match list_find (λ t, Is_true (torsion_rejected (topology molecule) t)) ds with
     | Some (_, t) =>
         Raise (default DihedralConnectionError
                  (check_linear_torsions t (topology molecule)))
     | None =>
         Ok {| index := index e; initial_molecules := initial_molecules e;
               attributes := attributes e; dihedrals := Some ds;
               constraints := constraints e |}
     end).
Proof.
  unfold DatasetEntry_init.
  destruct (match kc with Some c => Constraints_parse c | None => Ok Constraints_new end)
    as [cs|e]; [|done]. simpl.
  destruct (result_mapM (λ c, to_qcschema _ c ex) _) as [ms|e]; [|done]. simpl.
  destruct (check (cmiles_validator a)) as [[]|e]; [|done]. simpl.
  destruct (result_mapM (λ m, check _) ms) as [us|e]; [|done]. simpl.
  destruct (check (check_constraints cs a)) as [[]|e]; [|done]. simpl.
  apply mapM_check_dihedral.
Qed.

Lemma load_at_app (h more : heap) (r : loc) (e : DatasetEntry) :
  load_at h r = Ok e → load_at (h ++ more) r = Ok e.
Proof.
  unfold load_at. destruct (h !! r) as [e'|] eqn:Hr; [|done].
  intros [= ->]. by rewrite (lookup_app_l_Some _ _ _ _ Hr).
Qed.

Lemma mapM_load_app (h more : heap) (l : list loc) (es : list DatasetEntry) :
  result_mapM (load_at h) l = Ok es → result_mapM (load_at (h ++ more)) l = Ok es.
Proof.
  rewrite !result_mapM_Ok. intros HF. eapply Forall2_impl; [exact HF|].
  intros r e. apply load_at_app.
Qed.

Lemma n_records_set (h : heap) (d : list (string * loc)) i e (es : list DatasetEntry) :
  result_mapM (load_at h) (odict_values d) = Ok es →
  ∃ es' : list DatasetEntry,
    result_mapM (load_at (h ++ [e])) (odict_values (odict_set i (length h) d)) = Ok es' ∧
    sum_list ((λ x, length (initial_molecules x)) <$> es')
    + default 0 ((λ x, length (initial_molecules x)) <$> (odict_get i d ≫= λ r, h !! r))
    = sum_list ((λ x, length (initial_molecules x)) <$> es) + length (initial_molecules e).
Proof.
  assert (Hnew : load_at (h ++ [e]) (length h) = Ok e).
  { unfold load_at. by rewrite list_lookup_middle. }
  unfold odict_values. revert es.
  induction d as [|[k r] d IH]; intros es.
  - intros [= <-]. cbn [odict_set fmap list_fmap snd result_mapM]. rewrite Hnew.
    eexists. split; [done|]. simpl. lia.
  - cbn [fmap list_fmap snd result_mapM odict_set odict_get].
    intros (e0 & He0 & (es0 & Hes0 & [= <-])%result_bind_Ok)%result_bind_Ok.
    destruct (decide (k = i)) as [->|Hne].
    + cbn [fmap list_fmap snd result_mapM]. rewrite Hnew.
      change (list_fmap _ _ snd d) with (snd <$> d).
      rewrite (mapM_load_app _ _ _ _ Hes0).
      eexists. split; [done|]. rewrite !fmap_cons, !sum_list_cons.
      unfold load_at in He0. cbn [mbind option_bind].
      destruct (h !! r) as [e1|]; [|done].
      injection He0 as ->. simpl. lia.
    + destruct (IH _ Hes0) as (es' & Hes' & Hsum).
      cbn [fmap list_fmap snd result_mapM].
      rewrite (load_at_app _ _ _ _ He0).
      change (list_fmap _ _ snd ?l) with (snd <$> l). rewrite Hes'.
      eexists. split; [done|]. rewrite !fmap_cons, !sum_list_cons.
      rewrite <- !Nat.add_assoc. by rewrite Hsum.
Qed.

Lemma load_all_valid (h : heap) (d : list (string * loc)) :
  Forall (λ kr, is_Some (h !! kr.2)) d →
  ∃ es : list DatasetEntry, result_mapM (load_at h) (odict_values d) = Ok es.
Proof.
  unfold odict_values.
  induction 1 as [|[k r] d [e He] _ (es & IH)]; [by eexists|].
  exists (e :: es). cbn [fmap list_fmap snd result_mapM]. simpl in He.
  rewrite (load_at_Some _ _ _ He). cbn [mbind result_bind].
  change (list_fmap _ _ snd d) with (snd <$> d). by rewrite IH.
Qed.

Lemma well_keyed_set (h : heap) (d : list (string * loc)) (e : DatasetEntry) :
  well_keyed h d → well_keyed (h ++ [e]) (odict_set (index e) (length h) d).
Proof.
  intros [Hnd Hk]. split; [by apply odict_set_keys_NoDup|].
  rewrite Forall_forall in Hk. apply Forall_forall.
  intros kv [->|Hin]%odict_set_elem.
  - exists e. split; [by apply list_lookup_middle|done].
  - destruct (Hk _ Hin) as (e' & He' & Hi). exists e'.
    split; [by apply lookup_app_l_Some|done].
Qed.

Lemma add_molecule_shape i molecule a ex kc ds self h :
  match DatasetEntry_init molecule i a ex kc ds with
  | Ok e =>
      (add_molecule i molecule a ex kc ds self h).1.1 = h ++ [e] ∧
      dataset (add_molecule i molecule a ex kc ds self h).1.2
      = odict_set i (length h) (dataset self)
  | Raise _ =>
      (add_molecule i molecule a ex kc ds self h).1.1 = h ∧
      dataset (add_molecule i molecule a ex kc ds self h).1.2 = dataset self
  end.
Proof.
  unfold add_molecule.
  destruct (DatasetEntry_init molecule i a ex kc ds) as [e|e].
  - by destruct (initial_molecules e).
  - destruct e; try done. unfold filter_molecules. by destruct (odict_get _ _).
Qed.

(** X8.  [add_molecule] keeps a dataset consistent, whatever its outcome:
    keys stay unique and each key is the index of its entry, the entries
    stored before are still there unchanged, and [n_records] is defined before
    and after.  When the entry could be built, [n_molecules] grows by one for
    a new index and not at all for an index in use, and [n_records] changes by
    the geometries of the new entry less those of the entry it replaced; when
    it could not be built, both counts are unchanged. *)
Theorem add_molecule_keeps_dataset_consistent
    (i : string) (molecule : Molecule) (a : Topology) (ex : Extras)
    (kc : option ConstraintsDict) (ds : option (list torsion))
    (self : Dataset) (h : heap) :
  well_keyed h (dataset self) →
  let out := add_molecule i molecule a ex kc ds self h in
  well_keyed out.1.1 (dataset out.1.2) ∧
  (∃ more, out.1.1 = h ++ more) ∧
  ∃ n n',
    BasicDataset_n_records h self = Ok n ∧
    BasicDataset_n_records out.1.1 out.1.2 = Ok n' ∧
    match DatasetEntry_init molecule i a ex kc ds with
    | Ok data_entry =>
        BasicDataset_n_molecules out.1.2
        = BasicDataset_n_molecules self + match odict_get i (dataset self) with Some _ => 0 | None => 1 end ∧
        n' + default 0 ((λ old, length (initial_molecules old))
                          <$> (odict_get i (dataset self) ≫= λ r, h !! r))
        = n + length (initial_molecules data_entry)
    | Raise _ =>
        BasicDataset_n_molecules out.1.2 = BasicDataset_n_molecules self ∧ n' = n
    end.
Proof.
  intros Hwk out.
  destruct (load_all_valid h (dataset self) (well_keyed_valid _ _ Hwk)) as (es & Hes).
  unfold BasicDataset_n_records, BasicDataset_n_molecules.
  pose proof (add_molecule_shape i molecule a ex kc ds self h) as Hshape.
  fold out in Hshape.
  destruct (DatasetEntry_init molecule i a ex kc ds) as [data_entry|e] eqn:Hinit;
    destruct Hshape as [-> ->].
  - destruct (DatasetEntry_init_Ok _ _ _ _ _ _ _ Hinit) as (Hi & _).
    destruct (n_records_set h (dataset self) i data_entry es Hes) as (es' & Hes' & Hsum).
    split; [rewrite <- Hi; by apply well_keyed_set|].
    split; [by eexists|].
    exists (sum_list ((λ x, length (initial_molecules x)) <$> es)),
           (sum_list ((λ x, length (initial_molecules x)) <$> es')).
    rewrite Hes, Hes'. split; [done|]. split; [done|].
    split; [apply odict_set_length|exact Hsum].
  - split; [done|]. split; [exists []; by rewrite app_nil_r|].
    eexists _, _. rewrite Hes. done.
Qed.

(** X9.  In a consistent dataset [get_molecule_entry] returns indices of the
    dataset, each once and in dictionary order: exactly those under which an
    entry with a molecule isomorphic to the query is stored. *)
Theorem get_molecule_entry_lists_isomorphic_keys
    (h : heap) (d : list (string * loc)) (molecule : Topology) :
  well_keyed h d →
  ∃ ids,
    get_molecule_entry_at h d molecule = Ok ids ∧
    NoDup ids ∧
    ids `sublist_of` odict_keys d ∧
    ∀ k, k ∈ ids ↔
         ∃ r e, odict_get k d = Some r ∧ h !! r = Some e ∧
                is_Some (are_isomorphic molecule (attributes e)).
Proof.
  intros Hwk. pose proof Hwk as [Hnd Hk].
  rewrite (get_molecule_entry_candidates _ _ _ (well_keyed_valid _ _ Hwk)).
  eexists. split; [done|].
  assert (Hsub : ((λ c : candidate, index c.1.2) <$> candidates h d molecule)
                 `sublist_of` odict_keys d).
  { clear Hnd Hwk. unfold candidates, odict_keys.
    induction Hk as [|[k r] d (e & He & Hi) _ IH]; [done|].
    cbn [omap list_omap fmap list_fmap snd fst]. simpl in He, Hi. rewrite He. simpl.
    destruct (are_isomorphic molecule (attributes e)) as [m|]; simpl.
    - rewrite Hi. by apply sublist_skip.
    - by apply sublist_cons. }
  split; [by eapply sublist_NoDup|]. split; [done|].
  intros k. rewrite list_elem_of_fmap. split.
  - intros (c & -> & Hc). pose proof (candidates_resolve _ _ molecule Hwk) as Hres.
    rewrite Forall_forall in Hres. destruct (Hres _ Hc) as (Hg & He & Hm).
    exists c.1.1, c.1.2. by rewrite Hm.
  - intros (r & e & Hg & He & [m Hm]). exists (r, e, m). split.
    + rewrite Forall_forall in Hk.
      assert (Hin : (k, r) ∈ d).
      { clear -Hg. induction d as [|[k' r'] d IH]; [done|]. simpl in Hg.
        destruct (decide (k' = k)) as [->|Hne].
        - injection Hg as ->. apply list_elem_of_here.
        - apply list_elem_of_further. by apply IH. }
      destruct (Hk _ Hin) as (e' & He' & Hi). simpl in *. congruence.
    + apply candidates_elem. exists k. simpl. split; [|done].
      clear -Hg. induction d as [|[k' r'] d IH]; [done|]. simpl in Hg.
      destruct (decide (k' = k)) as [->|Hne].
      * injection Hg as ->. apply list_elem_of_here.
      * apply list_elem_of_further. by apply IH.
Qed.

End dataset_more.

(** ** Merges: what they touch *)
Section frames.
Context `{!Toolkit}.

Lemma modifies_only_refl P h : modifies_only P h h.
Proof. by split. Qed.

Lemma modifies_only_trans P h1 h2 h3 :
  modifies_only P h1 h2 → modifies_only P h2 h3 → modifies_only P h1 h3.
Proof.
  intros [Hl1 H1] [Hl2 H2]. split; [congruence|].
  intros r Hr. by rewrite H2, H1.
Qed.

Lemma modifies_only_weaken (P Q : loc → Prop) h h' :
  (∀ r, P r → Q r) → modifies_only P h h' → modifies_only Q h h'.
Proof. intros HPQ [Hl H1]. split; [done|]. intros r Hr. apply H1. naive_solver. Qed.

Lemma modifies_only_store r e h : modifies_only (λ x, x = r) h (<[r := e]> h).
Proof.
  split; [apply length_insert|]. intros x Hx. apply list_lookup_insert_ne. congruence.
Qed.

Lemma transfer_one_frame molecule atom_map cur u g h h' res :
  transfer_one molecule atom_map cur u g h = (h', res) →
  modifies_only (λ x, x = cur) h h'.
Proof.
  unfold transfer_one. rewrite M_bind_unfold. unfold load, lift, load_at.
  destruct (h !! cur) as [ce|]; [|intros [= <- <-]; apply modifies_only_refl].
  destruct (initial_molecules ce) as [|first rest];
    [intros [= <- <-]; apply modifies_only_refl|].
  destruct (existsb _ _); intros [= <- <-];
    [apply modifies_only_refl|apply modifies_only_store].
Qed.

Lemma M_foldl_frame {A B} (f : A → B → M A) (P : loc → Prop) :
  (∀ a b h h' res, f a b h = (h', res) → modifies_only P h h') →
  ∀ l a h h' res, M_foldl f a l h = (h', res) → modifies_only P h h'.
Proof.
  intros Hf l. induction l as [|x l IH]; intros a h h' res; simpl.
  - intros [= <- <-]. apply modifies_only_refl.
  - rewrite M_bind_unfold. destruct (f a x h) as [h1 [a1|e]] eqn:Hfx.
    + intros Hrest. eapply modifies_only_trans; [by eapply Hf|by eapply IH].
    + intros [= <- <-]. by eapply Hf.
Qed.

Lemma transfer_frame molecule atom_map gs cur h h' res :
  transfer_geometries molecule atom_map gs cur h = (h', res) →
  modifies_only (λ x, x = cur) h h'.
Proof.
  unfold transfer_geometries. destruct atom_map as [m|].
  - apply M_foldl_frame. intros [] g. apply transfer_one_frame.
  - intros [= <- <-]. apply modifies_only_refl.
Qed.

Lemma odict_get_values {V} k (d : list (string * V)) v :
  odict_get k d = Some v → v ∈ odict_values d.
Proof.
  unfold odict_values. induction d as [|[k' v'] d IH]; simpl; [done|].
  destruct (decide (k' = k)) as [->|Hne].
  - intros [= ->]. apply list_elem_of_here.
  - intros Hg. apply list_elem_of_further. by apply IH.
Qed.

Lemma getitem_inv k (d : list (string * loc)) h h' res :
  getitem k d h = (h', res) →
  h' = h ∧ ∀ r, res = Ok r → odict_get k d = Some r ∧ r ∈ odict_values d.
Proof.
  unfold getitem. destruct (odict_get k d) as [r|] eqn:Hg; intros [= <- <-].
  - split; [done|]. intros r' [= <-]. split; [done|]. by eapply odict_get_values.
  - by split.
Qed.

Lemma load_inv r h h' (res : result DatasetEntry) :
  load r h = (h', res) → h' = h.
Proof. by intros [= <- _]. Qed.

Lemma lift_inv {A} (f : heap → result A) h h' res :
  lift f h = (h', res) → h' = h.
Proof. by intros [= <- _]. Qed.


Ltac fail_case := intros [= <- <-]; split; [apply modifies_only_refl|done].

Tactic Notation "run" ident(H) "as" simple_intropattern(x) :=
  rewrite M_bind_unfold;
  match goal with
  | |- context [match ?m ?h with _ => _ end] =>
      let h1 := fresh "h" in
      destruct (m h) as [h1 [x|?]] eqn:H
  end.

Lemma basic_step_in_frame : step_in_frame BasicDataset_add_step.
Proof.
  intros nd [k r] h h' res. unfold BasicDataset_add_step. cbn [snd].
  run Hl as entry; apply load_inv in Hl as ->; [|fail_case].
  run Hg as ids; apply lift_inv in Hg as ->; [|fail_case].
  destruct ids as [|mol_id ids].
  - intros [= <- <-]. split; [apply modifies_only_refl|].
    intros nd' [= <-]. right. by exists k.
  - run Hgi as cur; apply getitem_inv in Hgi as [-> Hcur]; [|fail_case].
    destruct (Hcur _ eq_refl) as [_ Hin].
    run Hl' as entry'; apply load_inv in Hl' as ->; [|fail_case].
    run Ht as u; apply transfer_frame in Ht; intros [= <- <-].
    + split; [eapply modifies_only_weaken; [|exact Ht]; naive_solver|].
      intros nd' [= <-]. by left.
    + split; [eapply modifies_only_weaken; [|exact Ht]; naive_solver|done].
Qed.

Lemma opt_scan_frame entry nd ids records h h' res :
  OptimizationDataset_scan entry nd ids records h = (h', res) →
  modifies_only (λ x, x ∈ odict_values nd) h h'.
Proof.
  revert records. induction ids as [|mol_id ids IH]; intros records.
  - intros [= <- <-]. apply modifies_only_refl.
  - cbn [OptimizationDataset_scan].
    run Hgi as cur; apply getitem_inv in Hgi as [-> Hcur];
      [|intros [= <- <-]; apply modifies_only_refl].
    destruct (Hcur _ eq_refl) as [_ Hin].
    run Hl as ce; apply load_inv in Hl as ->;
      [|intros [= <- <-]; apply modifies_only_refl].
    run Hc1 as c1; apply lift_inv in Hc1 as ->;
      [|intros [= <- <-]; apply modifies_only_refl].
    destruct (Constraints_eqb _ _); [|apply IH].
    run Ht as u; apply transfer_frame in Ht; intros [= <- <-];
      (eapply modifies_only_weaken; [|exact Ht]); naive_solver.
Qed.

Lemma optimization_step_in_frame : step_in_frame OptimizationDataset_add_step.
Proof.
  intros nd [k r] h h' res. unfold OptimizationDataset_add_step. cbn [snd].
  run Hl as entry; apply load_inv in Hl as ->; [|fail_case].
  run Hg as ids; apply lift_inv in Hg as ->; [|fail_case].
  destruct ids as [|mol_id ids].
  - intros [= <- <-]. split; [apply modifies_only_refl|].
    intros nd' [= <-]. right. by eexists.
  - run Hs as found; apply opt_scan_frame in Hs.
    + destruct found as [records|].
      * destruct (_clean_index (index entry)) as [core tag].
        run Hl' as entry'; apply load_inv in Hl' as ->.
        -- rewrite M_bind_unfold. unfold store. intros [= <- <-]. split.
           ++ eapply modifies_only_trans.
              ** eapply modifies_only_weaken; [|exact Hs]. naive_solver.
              ** eapply modifies_only_weaken; [|apply modifies_only_store]. naive_solver.
           ++ intros nd' [= <-]. right. by eexists.
        -- intros [= <- <-]. split; [|done].
           eapply modifies_only_weaken; [|exact Hs]. naive_solver.
      * intros [= <- <-]. split; [|intros nd' [= <-]; by left].
        eapply modifies_only_weaken; [|exact Hs]. naive_solver.
    + intros [= <- <-]. split; [|done].
      eapply modifies_only_weaken; [|exact Hs]. naive_solver.
Qed.

Lemma torsion_scan_frame entry nd ids h h' res :
  TorsiondriveDataset_scan entry nd ids h = (h', res) →
  modifies_only (λ x, x ∈ odict_values nd) h h'.
Proof.
  induction ids as [|mol_id ids IH].
  - intros [= <- <-]. apply modifies_only_refl.
  - cbn [TorsiondriveDataset_scan].
    run Hgi as cur; apply getitem_inv in Hgi as [-> Hcur];
      [|intros [= <- <-]; apply modifies_only_refl].
    destruct (Hcur _ eq_refl) as [_ Hin].
    run Hl as ce; apply load_inv in Hl as ->;
      [|intros [= <- <-]; apply modifies_only_refl].
    run Hc1 as c1; apply lift_inv in Hc1 as ->;
      [|intros [= <- <-]; apply modifies_only_refl].
    run Hc2 as c2; apply lift_inv in Hc2 as ->;
      [|intros [= <- <-]; apply modifies_only_refl].
    run Hc3 as c3; apply lift_inv in Hc3 as ->;
      [|intros [= <- <-]; apply modifies_only_refl].
    destruct (decide _); [|apply IH].
    run Ht as u; apply transfer_frame in Ht; intros [= <- <-];
      (eapply modifies_only_weaken; [|exact Ht]); naive_solver.
Qed.

Lemma torsiondrive_step_in_frame : step_in_frame TorsiondriveDataset_add_step.
Proof.
  intros nd [k r] h h' res. unfold TorsiondriveDataset_add_step. cbn [snd].
  run Hl as entry; apply load_inv in Hl as ->; [|fail_case].
  run Hg as ids; apply lift_inv in Hg as ->; [|fail_case].
  run Hs as found; apply torsion_scan_frame in Hs.
  - destruct found; intros [= <- <-].
    + split; [|intros nd' [= <-]; by left].
      eapply modifies_only_weaken; [|exact Hs]. naive_solver.
    + split; [|intros nd' [= <-]; right; by eexists].
      eapply modifies_only_weaken; [|exact Hs]. naive_solver.
  - intros [= <- <-]. split; [|done].
    eapply modifies_only_weaken; [|exact Hs]. naive_solver.
Qed.

Lemma add_step_in_frame c : step_in_frame (add_step c).
Proof.
  destruct c; [apply basic_step_in_frame|apply optimization_step_in_frame
              |apply torsiondrive_step_in_frame].
Qed.


Lemma odict_set_keys_incl {V} k (v : V) d : odict_keys d ⊆ odict_keys (odict_set k v d).
Proof.
  destruct (decide (k ∈ odict_keys d)) as [Hin|Hnin].
  - by rewrite odict_set_present_keys.
  - rewrite odict_set_fresh by done. unfold odict_keys. rewrite fmap_app.
    intros x Hx. apply elem_of_app. by left.
Qed.

Lemma odict_set_values {V} k (v : V) d x :
  x ∈ odict_values (odict_set k v d) → x = v ∨ x ∈ odict_values d.
Proof.
  unfold odict_values. intros ([k' v'] & -> & Hin)%list_elem_of_fmap.
  apply odict_set_elem in Hin as [[= -> ->]|Hin]; [by left|].
  right. apply list_elem_of_fmap. by exists (k', v').
Qed.

Lemma fold_in_frame step (Q : loc → Prop) :
  step_in_frame step →
  ∀ items nd h h' res,
    (∀ x, x ∈ odict_values nd → Q x) →
    (∀ x, x ∈ odict_values items → Q x) →
    M_foldl step nd items h = (h', res) →
    modifies_only Q h h' ∧
    ∀ nd', res = Ok nd' →
           odict_keys nd ⊆ odict_keys nd' ∧ ∀ x, x ∈ odict_values nd' → Q x.
Proof.
  intros Hstep items.
  induction items as [|item items IH]; intros nd h h' res Hnd Hitems.
  - intros [= <- <-]. split; [apply modifies_only_refl|]. by intros nd' [= <-].
  - cbn [M_foldl]. rewrite M_bind_unfold.
    destruct (step nd item h) as [h1 [nd1|e]] eqn:Hs;
      apply Hstep in Hs as [Hm Hnd1].
    + assert (HQ : ∀ x, x = item.2 ∨ x ∈ odict_values nd → Q x).
      { intros x [->|Hx]; [|by apply Hnd].
        apply Hitems. unfold odict_values. rewrite fmap_cons. apply list_elem_of_here. }
      assert (Hnd1' : odict_keys nd ⊆ odict_keys nd1 ∧ ∀ x, x ∈ odict_values nd1 → Q x).
      { destruct (Hnd1 _ eq_refl) as [->|[k' ->]]; [done|].
        split; [apply odict_set_keys_incl|].
        intros x [->|Hx]%odict_set_values; apply HQ; [by left|by right]. }
      destruct Hnd1' as [Hk1 Hv1].
      intros Hrest. apply IH in Hrest as [Hm' Hres]; [|done|].
      * split.
        -- eapply modifies_only_trans; [|exact Hm'].
           eapply modifies_only_weaken; [|exact Hm]. exact HQ.
        -- intros nd' Hnd'. destruct (Hres _ Hnd') as [Hk Hv]. split; [|done].
           by etrans.
      * intros x Hx. apply Hitems. unfold odict_values in *. rewrite fmap_cons.
        by apply list_elem_of_further.
    + intros [= <- <-]. split; [|done].
      eapply modifies_only_weaken; [|exact Hm].
      intros x [->|Hx]; [|by apply Hnd].
      apply Hitems. unfold odict_values. rewrite fmap_cons. apply list_elem_of_here.
Qed.

Lemma deepcopy_in_frame d :
  ∀ memo h h' res,
    deepcopy_entries memo d h = (h', res) →
    ∃ more, h' = h ++ more ∧
      ∀ d', res = Ok d' →
            odict_keys d' = odict_keys d ∧
            ∀ x, x ∈ odict_values d' → length h ≤ x ∨ x ∈ memo.*2.
Proof.
  unfold odict_keys, odict_values.
  induction d as [|[k r] d IH]; intros memo h h' res.
  - intros [= <- <-]. exists []. rewrite app_nil_r. split; [done|].
    intros d' [= <-]. split; [done|]. by intros x ?%elem_of_nil.
  - cbn [deepcopy_entries].
    destruct (list_find (λ m, m.1 = r) memo) as [[j [r0 r']]|] eqn:Hfind.
    + apply list_find_Some in Hfind as (Hj & _ & _).
      rewrite M_bind_unfold.
      destruct (deepcopy_entries memo d h) as [h1 [rest|e]] eqn:Hd;
        apply IH in Hd as (more & -> & Hrest); intros [= <- <-]; exists more;
        (split; [done|]); [|done].
      intros d' [= <-]. destruct (Hrest _ eq_refl) as [Hk Hv].
      rewrite !fmap_cons. split; [by rewrite Hk|].
      intros x [->|Hx]%elem_of_cons; [|by apply Hv].
      right. apply list_elem_of_fmap. exists (r0, r'). split; [done|].
      by eapply list_elem_of_lookup_2.
    + rewrite M_bind_unfold. unfold load at 1, lift, load_at.
      destruct (h !! r) as [e|]; [|intros [= <- <-]; exists []; by rewrite app_nil_r].
      rewrite M_bind_unfold. unfold alloc at 1.
      rewrite M_bind_unfold.
      destruct (deepcopy_entries ((r, length h) :: memo) d (h ++ [e]))
        as [h1 [rest|e']] eqn:Hd;
        apply IH in Hd as (more & -> & Hrest); intros [= <- <-]; exists ([e] ++ more);
        (split; [by rewrite app_assoc|]); [|done].
      intros d' [= <-]. destruct (Hrest _ eq_refl) as [Hk Hv].
      rewrite !fmap_cons. split; [by rewrite Hk|].
      intros x [->|Hx]%elem_of_cons; [by left|].
      destruct (Hv _ Hx) as [Hle|Hin].
      * left. rewrite length_app in Hle. simpl in Hle. lia.
      * rewrite fmap_cons in Hin. apply elem_of_cons in Hin as [->|Hin]; [by left|by right].
Qed.

Lemma add_frame_and_header (self other : Dataset) (h : heap) :
  let out := Dataset_add self other h in
  length h ≤ length out.1 ∧
  (∀ r, r < length h → r ∉ odict_values (dataset other) → out.1 !! r = h !! r) ∧
  match out.2 with
  | Ok result =>
      dataset_class result = dataset_class self ∧
      dataset_type result = dataset_type self ∧
      dataset_type other = dataset_type self ∧
      metadata_elements result = metadata_elements self ∪ metadata_elements other ∧
      provenance result = provenance self ∧
      filtered_molecules result = filtered_molecules self ∧
      odict_keys (dataset self) ⊆ odict_keys (dataset result) ∧
      (∀ x, x ∈ odict_values (dataset result) →
            length h ≤ x ∨ x ∈ odict_values (dataset other))
  | Raise _ => True
  end.
Proof.
  intros out. subst out. unfold Dataset_add, add_with.
  destruct (decide (dataset_type self ≠ dataset_type other)) as [Hne|Heq%dec_stable].
  { simpl. split; [done|]. by split. }
  rewrite M_bind_unfold.
  destruct (deepcopy_entries [] (dataset self) h) as [h1 [entries|e]] eqn:Hd;
    apply deepcopy_in_frame in Hd as (more & -> & Hcopy).
  - destruct (Hcopy _ eq_refl) as [Hk Hv].
    rewrite M_bind_unfold.
    destruct (M_foldl _ entries (dataset other) (h ++ more)) as [h2 [nd|e]] eqn:Hf;
      apply (fold_in_frame _ (λ x, length h ≤ x ∨ x ∈ odict_values (dataset other))
               (add_step_in_frame _)) in Hf as [[Hl Hm] Hres].
    + cbn [fst snd mret M_ret]. destruct (Hres _ eq_refl) as [Hk' Hv'].
      split; [rewrite Hl, length_app; lia|]. split.
      * intros r Hr Hnin. rewrite Hm by (intros [?|?]; [lia|done]).
        by apply lookup_app_l.
      * cbn [dataset_class dataset_type metadata_elements provenance
             filtered_molecules dataset set_dataset set_elements].
        rewrite <- Hk. done.
    + intros x Hx. destruct (Hv _ Hx) as [?|Hin]; [by left|]. by apply elem_of_nil in Hin.
    + by right.
    + cbn [fst snd]. split; [rewrite Hl, length_app; lia|]. split; [|done].
      intros r Hr Hnin. rewrite Hm by (intros [?|?]; [lia|done]).
      by apply lookup_app_l.
    + intros x Hx. destruct (Hv _ Hx) as [?|Hin]; [by left|]. by apply elem_of_nil in Hin.
    + by right.
  - cbn [fst snd]. split; [rewrite length_app; lia|]. split; [|done].
    intros r Hr _. by apply lookup_app_l.
Qed.


Lemma deepcopy_copies d :
  ∀ memo h,
    Forall (λ kr, is_Some (h !! kr.2)) d →
    (∀ r r', (r, r') ∈ memo → is_Some (h !! r) ∧ h !! r' = h !! r) →
    ∃ more d',
      deepcopy_entries memo d h = (h ++ more, Ok d') ∧
      Forall2 (λ old new, new.1 = old.1 ∧
                          ∀ e, h !! old.2 = Some e → (h ++ more) !! new.2 = Some e)
        d d'.
Proof.
  induction d as [|[k r] d IH]; intros memo h Hvalid Hmemo.
  - exists [], []. rewrite app_nil_r. by split.
  - apply Forall_cons in Hvalid as [[e He] Hvalid]. simpl in He.
    cbn [deepcopy_entries].
    destruct (list_find (λ m, m.1 = r) memo) as [[j [r0 r']]|] eqn:Hfind.
    + apply list_find_Some in Hfind as (Hj & Hr0 & _). simpl in Hr0. subst r0.
      apply list_elem_of_lookup_2 in Hj. destruct (Hmemo _ _ Hj) as [_ Hr'].
      destruct (IH memo h Hvalid Hmemo) as (more & d' & Hd & HF).
      exists more, ((k, r') :: d'). rewrite M_bind_unfold, Hd. split; [done|].
      constructor; [|done]. split; [done|]. simpl. intros e0 He0.
      apply lookup_app_l_Some. congruence.
    + rewrite M_bind_unfold, (load_Some _ _ _ He).
      rewrite M_bind_unfold. unfold alloc at 1. rewrite M_bind_unfold.
      destruct (IH ((r, length h) :: memo) (h ++ [e])) as (more & d' & Hd & HF).
      { eapply Forall_impl; [exact Hvalid|]. intros kr [e0 He0].
        exists e0. by apply lookup_app_l_Some. }
      { intros x x' [[= -> ->]|Hin]%elem_of_cons.
        - rewrite (lookup_app_l_Some _ _ _ _ He), list_lookup_middle by done. eauto.
        - destruct (Hmemo _ _ Hin) as [[e0 He0] Hx'].
          rewrite (lookup_app_l_Some _ _ _ _ He0).
          rewrite (lookup_app_l_Some h [e] x' e0) by congruence. eauto. }
      rewrite Hd. exists ([e] ++ more), ((k, length h) :: d').
      rewrite app_assoc. split; [done|].
      constructor.
      * split; [done|]. simpl. intros e0 He0.
        apply lookup_app_l_Some. rewrite list_lookup_middle by done. congruence.
      * eapply Forall2_impl; [exact HF|]. intros old new [Hk Hv]. split; [done|].
        intros e0 He0. apply Hv. by apply lookup_app_l_Some.
Qed.

(** X10.  A merge writes only to entries of [other]: whatever the class and
    the outcome, also when it raises, the store only grows and every object
    that existed before and is not an entry of [other] is left as it was; in
    particular no entry of [self] is modified unless [other] shares it. *)
Theorem add_modifies_only_entries_of_other (self other : Dataset) (h : heap) :
  let out := Dataset_add self other h in
  length h ≤ length out.1 ∧
  ∀ r, r < length h → r ∉ odict_values (dataset other) → out.1 !! r = h !! r.
Proof.
  intros out. destruct (add_frame_and_header self other h) as (Hl & Hm & _). by split.
Qed.

(** X11.  The dataset a merge returns has the class, type, provenance and
    filter ledger of [self] ([other]'s ledger is not carried over) and the
    union of the two element sets; the types of the operands agree; every
    index of [self] is an index of the result; and every entry of the result
    is an object created by the merge or an entry object of [other] itself. *)
Theorem add_result_header (self other : Dataset) (h : heap) :
  match (Dataset_add self other h).2 with
  | Ok result =>
      dataset_class result = dataset_class self ∧
      dataset_type result = dataset_type self ∧
      dataset_type other = dataset_type self ∧
      metadata_elements result = metadata_elements self ∪ metadata_elements other ∧
      provenance result = provenance self ∧
      filtered_molecules result = filtered_molecules self ∧
      odict_keys (dataset self) ⊆ odict_keys (dataset result) ∧
      (∀ x, x ∈ odict_values (dataset result) →
            length h ≤ x ∨ x ∈ odict_values (dataset other))
  | Raise _ => True
  end.
Proof. by destruct (add_frame_and_header self other h) as (_ & _ & Hres). Qed.

(** X12.  Merging an empty dataset of the same type returns a deep copy of
    [self]: the store grows by the copies only, the result has the indices of
    [self] in the same order, each holding a new object equal to the entry of
    [self], with the elements united and the ledger of [self]. *)
Theorem add_empty_is_deep_copy (self other : Dataset) (h : heap) :
  dataset_type self = dataset_type other →
  dataset other = [] →
  Forall (λ kr, is_Some (h !! kr.2)) (dataset self) →
  ∃ copies result,
    Dataset_add self other h = (h ++ copies, Ok result) ∧
    Forall2 (λ old new, new.1 = old.1 ∧ length h ≤ new.2 ∧
                        (h ++ copies) !! new.2 = h !! old.2)
      (dataset self) (dataset result) ∧
    metadata_elements result = metadata_elements self ∪ metadata_elements other ∧
    filtered_molecules result = filtered_molecules self.
Proof.
  intros Htype Hempty Hvalid.
  destruct (deepcopy_copies (dataset self) [] h Hvalid) as (more & d' & Hd & HF).
  { by intros r r' ?%elem_of_nil. }
  pose proof Hd as Hfresh. apply deepcopy_in_frame in Hfresh as (more' & _ & Hfresh).
  destruct (Hfresh _ eq_refl) as [_ Hv].
  exists more. eexists.
  unfold Dataset_add, add_with. rewrite decide_False by (by intros []).
  rewrite M_bind_unfold, Hd, Hempty. cbn [M_foldl]. split; [reflexivity|].
  cbn [dataset metadata_elements filtered_molecules set_dataset set_elements].
  split; [|done].
  apply Forall2_same_length_lookup_2; [by eapply Forall2_length|].
  intros i old new Hold Hnew.
  destruct (Forall2_lookup_lr _ _ _ _ _ _ HF Hold Hnew) as [Hk Hcopy].
  split; [done|].
  rewrite Forall_forall in Hvalid.
  destruct (Hvalid old (list_elem_of_lookup_2 _ _ _ Hold)) as [e He].
  split; [|rewrite He; by apply Hcopy].
  destruct (Hv new.2) as [?|Hin]; [|done|by apply elem_of_nil in Hin].
  unfold odict_values. apply list_elem_of_fmap. exists new.
  split; [done|]. by eapply list_elem_of_lookup_2.
Qed.

End frames.

(** ** Fusing geometries *)
Section fusing.
Context `{!Toolkit}.

Lemma fuse_geometries_nil molecule m gs : fuse_geometries molecule m gs [] = [].
Proof. unfold fuse_geometries. by induction gs. Qed.

Lemma fuse_geometries_cons molecule m g gs first rest :
  fuse_geometries molecule m (g :: gs) (first :: rest)
  = fuse_geometries molecule m gs
      (if existsb (λ x, qcmol_eqb x (remap_to_qcschema molecule m g (qc_extras first)))
            (first :: rest)
       then first :: rest
       else first :: rest ++ [remap_to_qcschema molecule m g (qc_extras first)]).
Proof. unfold fuse_geometries. cbn [foldl]. by destruct (existsb _ _). Qed.

Lemma fuse_geometries_spec molecule m gs :
  ∀ first rest,
    ∃ more,
      fuse_geometries molecule m gs (first :: rest) = first :: rest ++ more ∧
      length more ≤ length gs ∧
      (∀ g', g' ∈ more →
             ∃ g, g ∈ gs ∧ g' = remap_to_qcschema molecule m g (qc_extras first)) ∧
      (∀ g, g ∈ gs →
            ∃ x, x ∈ first :: rest ++ more ∧
                 (x = remap_to_qcschema molecule m g (qc_extras first) ∨
                  qcmol_eqb x (remap_to_qcschema molecule m g (qc_extras first)) = true)).
Proof.
  induction gs as [|g gs IH]; intros first rest.
  - exists []. rewrite app_nil_r. split; [done|]. split; [done|].
    split; by intros ? ?%elem_of_nil.
  - rewrite fuse_geometries_cons.
    destruct (existsb _ (first :: rest)) eqn:Hex.
    + destruct (IH first rest) as (more & Hf & Hlen & Hnew & Hcov).
      exists more. split; [done|]. split; [simpl; lia|]. split.
      * intros g' Hg'. destruct (Hnew _ Hg') as (g0 & Hg0 & ->).
        exists g0. split; [by apply list_elem_of_further|done].
      * intros g0 [->|Hg0]%elem_of_cons; [|by apply Hcov].
        apply existsb_exists in Hex as (x & Hx & Heq).
        exists x. split; [|by right].
        apply list_elem_of_In in Hx. rewrite app_comm_cons.
        apply elem_of_app. by left.
    + destruct (IH first (rest ++ [remap_to_qcschema molecule m g (qc_extras first)]))
        as (more & Hf & Hlen & Hnew & Hcov).
      exists (remap_to_qcschema molecule m g (qc_extras first) :: more).
      rewrite Hf, <- app_assoc. split; [done|]. split; [simpl; lia|]. split.
      * intros g' [->|Hg']%elem_of_cons.
        -- exists g. split; [apply list_elem_of_here|done].
        -- destruct (Hnew _ Hg') as (g0 & Hg0 & ->).
           exists g0. split; [by apply list_elem_of_further|done].
      * intros g0 [->|Hg0]%elem_of_cons.
        -- eexists. split; [|by left]. rewrite app_comm_cons.
           apply elem_of_app. right. apply list_elem_of_here.
        -- destruct (Hcov _ Hg0) as (x & Hx & Heq). exists x. split; [|done].
           by rewrite <- app_assoc in Hx.
Qed.

Lemma fuse_geometries_absorbed molecule m gs first rest :
  (∀ g, g ∈ gs →
        existsb (λ x, qcmol_eqb x (remap_to_qcschema molecule m g (qc_extras first)))
          (first :: rest) = true) →
  fuse_geometries molecule m gs (first :: rest) = first :: rest.
Proof.
  induction gs as [|g gs IH]; intros Hall; [done|].
  rewrite fuse_geometries_cons, Hall by apply list_elem_of_here.
  apply IH. intros g0 Hg0. apply Hall. by apply list_elem_of_further.
Qed.

Lemma fuse_geometries_idem molecule m gs current :
  (∀ x, qcmol_eqb x x = true) →
  fuse_geometries molecule m gs (fuse_geometries molecule m gs current)
  = fuse_geometries molecule m gs current.
Proof.
  intros Hrefl. destruct current as [|first rest].
  { by rewrite !fuse_geometries_nil. }
  destruct (fuse_geometries_spec molecule m gs first rest) as (more & -> & _ & _ & Hcov).
  apply fuse_geometries_absorbed. intros g Hg.
  destruct (Hcov _ Hg) as (x & Hx & Heq).
  apply existsb_exists. exists x. split; [by apply list_elem_of_In|].
  destruct Heq as [->|Heq]; [apply Hrefl|done].
Qed.

(** X13.  The plain merge policy, one incoming entry at a time, in a
    consistent dataset.  With no entry of an isomorphic molecule the incoming
    entry is stored under its key and the store is untouched.  Otherwise its
    geometries are fused into the first such entry in dictionary order, through
    the atom map onto that entry, and the dictionary is left as it is; fusing
    into an entry without geometries raises [IndexError]. *)
Theorem basic_step_fuses_first_isomorphic
    (h : heap) (nd : list (string * loc)) (k : string) (r : loc) (entry : DatasetEntry) :
  well_keyed h nd →
  h !! r = Some entry →
  BasicDataset_add_step nd (k, r) h
  = match candidates h nd (attributes entry) with
    | [] => (h, Ok (odict_set k r nd))
    | (cur, ce, m) :: _ =>
        if decide (initial_molecules ce = [] ∧ initial_molecules entry ≠ [])
        then (h, Raise IndexError)
        else (<[cur := set_initial_molecules
                         (fuse_geometries (attributes entry) m
                            (initial_molecules entry) (initial_molecules ce)) ce]> h,
              Ok nd)
    end.
Proof.
  intros Hwk Hr. rewrite (basic_step_spec _ _ _ _ _ Hwk Hr).
  destruct (candidates h nd (attributes entry)) as [|[[cur ce] m] post] eqn:Hcs.
  - rewrite (spec_step_insert _ _ _ _ _ _ Hr) by (by rewrite Hcs).
    rewrite Hcs. simpl. by rewrite list_insert_id.
  - by apply (spec_step_fuse _ _ _ _ _ _ [] cur ce m post Hwk Hr Hcs).
Qed.

(** X14.  The conformer transfer shared by the three merges only appends.  It
    writes to the current entry alone; there it changes only the geometry
    list, which keeps its old geometries in place and gains at most one
    geometry per incoming one, each the incoming geometry remapped with the
    extras of the entry's first geometry.  When it returns, every incoming
    geometry is represented in the list, and (with a reflexive equality on
    geometries) transferring the same geometries again changes nothing.  It
    raises only [IndexError], only for an entry without geometries, and then
    leaves the store as it was. *)
Theorem transfer_appends_missing_geometries
    (molecule : Topology) (m : AtomMap) (gs : list QCMol) (cur : loc)
    (h : heap) (ce : DatasetEntry) :
  h !! cur = Some ce →
  let out := transfer_geometries molecule (Some m) gs cur h in
  (∀ r, r ≠ cur → out.1 !! r = h !! r) ∧
  (∃ more,
     out.1 !! cur = Some (set_initial_molecules (initial_molecules ce ++ more) ce) ∧
     length more ≤ length gs ∧
     (∀ g', g' ∈ more →
            ∃ g first, g ∈ gs ∧ head (initial_molecules ce) = Some first ∧
                       g' = remap_to_qcschema molecule m g (qc_extras first))) ∧
  match out.2 with
  | Ok _ =>
      (∀ g first,
         g ∈ gs → head (initial_molecules ce) = Some first →
         ∃ x e', out.1 !! cur = Some e' ∧ x ∈ initial_molecules e' ∧
                 (x = remap_to_qcschema molecule m g (qc_extras first) ∨
                  qcmol_eqb x (remap_to_qcschema molecule m g (qc_extras first)) = true)) ∧
      ((∀ x, qcmol_eqb x x = true) →
       transfer_geometries molecule (Some m) gs cur out.1 = (out.1, Ok ()))
  | Raise e => e = IndexError ∧ initial_molecules ce = [] ∧ gs ≠ [] ∧ out.1 = h
  end.
Proof.
  intros Hce out. subst out.
  assert (Hlt : cur < length h) by (by eapply lookup_lt_Some).
  rewrite (transfer_geometries_spec _ _ _ _ _ _ Hce).
  destruct (decide (initial_molecules ce = [] ∧ gs ≠ [])) as [[Hnil Hgs]|Hok]; cbn [fst snd].
  - split; [done|]. split; [|done].
    exists []. rewrite app_nil_r, set_initial_molecules_id.
    split; [done|]. split; [simpl; lia|]. by intros ? ?%elem_of_nil.
  - destruct (initial_molecules ce) as [|first rest] eqn:Hms.
    + assert (gs = []) as ->.
      { destruct gs; [done|]. exfalso. apply Hok. by split. }
      assert (Hid : set_initial_molecules [] ce = ce).
      { destruct ce; simpl in *; by subst. }
      rewrite fuse_geometries_nil, Hid, list_insert_id by done.
      split; [done|]. split.
      * exists []. simpl. rewrite Hid.
        split; [done|]. split; [done|]. by intros ? ?%elem_of_nil.
      * split; [by intros ? ? ?%elem_of_nil|]. intros _.
        rewrite (transfer_geometries_spec _ _ _ _ _ _ Hce).
        rewrite decide_False by (by intros [_ ?]).
        by rewrite Hms, fuse_geometries_nil, Hid, list_insert_id.
    + destruct (fuse_geometries_spec molecule m gs first rest)
        as (more & Hf & Hlen & Hnew & Hcov).
      split; [intros r Hne; by apply list_lookup_insert_ne|]. split.
      * exists more. rewrite list_lookup_insert_eq by done. rewrite Hf.
        split; [done|]. split; [done|].
        intros g' Hg'. destruct (Hnew _ Hg') as (g & Hg & ->). by exists g, first.
      * split.
        -- intros g first' Hg [= <-]. destruct (Hcov _ Hg) as (x & Hx & Heq).
           exists x. eexists. rewrite list_lookup_insert_eq by done.
           split; [done|]. simpl. rewrite Hf. by split.
        -- intros Hrefl.
           erewrite transfer_geometries_spec by (by apply list_lookup_insert_eq).
           cbn [initial_molecules set_initial_molecules].
           rewrite decide_False.
           2:{ rewrite Hf. by intros [? _]. }
           rewrite fuse_geometries_idem by done.
           by rewrite list_insert_insert_eq.
Qed.

End fusing.

(** ** The properties above at concrete datasets *)
(** X8 at a dataset holding ethanol under ["a"], given methylamine under ["b"]. *)
Lemma add_molecule_keeps_dataset_consistent_witness :
  let old_entry :=
    Samples.entry "a" Samples.CCO [[1; 2; 3]%float] None Samples.no_constraints in
  let h := [old_entry] in
  let self := Samples.basic [("a"%string, 0)] in
  let molecule := Samples.molecule Samples.CN [[4; 5]; [5; 4]]%float in
  let out := add_molecule "b" molecule Samples.CN ""%string None None self h in
  well_keyed out.1.1 (dataset out.1.2) ∧
  (∃ more, out.1.1 = h ++ more) ∧
  ∃ n n',
    BasicDataset_n_records h self = Ok n ∧
    BasicDataset_n_records out.1.1 out.1.2 = Ok n' ∧
    match DatasetEntry_init molecule "b" Samples.CN ""%string None None with
    | Ok data_entry =>
        BasicDataset_n_molecules out.1.2
        = BasicDataset_n_molecules self
          + match odict_get "b" (dataset self) with Some _ => 0 | None => 1 end ∧
        n' + default 0 ((λ old, length (initial_molecules old))
                          <$> (odict_get "b" (dataset self) ≫= λ r, h !! r))
        = n + length (initial_molecules data_entry)
    | Raise _ =>
        BasicDataset_n_molecules out.1.2 = BasicDataset_n_molecules self ∧ n' = n
    end.
Proof.
  intros old_entry h self molecule.
  apply (add_molecule_keeps_dataset_consistent "b" molecule Samples.CN ""%string
           None None self h).
  split.
  - apply NoDup_singleton.
  - repeat constructor. by exists old_entry.
Defined.

(** X9 at that dataset, queried with ethanol in another atom order. *)
Lemma get_molecule_entry_lists_isomorphic_keys_witness :
  let old_entry :=
    Samples.entry "a" Samples.CCO [[1; 2; 3]%float] None Samples.no_constraints in
  let h := [old_entry] in
  let d := [("a"%string, 0)] in
  ∃ ids,
    get_molecule_entry_at h d Samples.OCC = Ok ids ∧
    NoDup ids ∧
    ids `sublist_of` odict_keys d ∧
    ∀ k, k ∈ ids ↔
         ∃ r e, odict_get k d = Some r ∧ h !! r = Some e ∧
                is_Some (are_isomorphic Samples.OCC (attributes e)).
Proof.
  intros old_entry h d.
  apply (get_molecule_entry_lists_isomorphic_keys h d Samples.OCC).
  split.
  - apply NoDup_singleton.
  - repeat constructor. by exists old_entry.
Defined.

(** X12 at a dataset holding ethanol, merged with an empty dataset. *)
Lemma add_empty_is_deep_copy_witness :
  let old_entry :=
    Samples.entry "a" Samples.CCO [[1; 2; 3]%float] None Samples.no_constraints in
  let h := [old_entry] in
  let self := Samples.basic [("a"%string, 0)] in
  let other := Samples.basic [] in
  ∃ copies result,
    Dataset_add self other h = (h ++ copies, Ok result) ∧
    Forall2 (λ old new, new.1 = old.1 ∧ length h ≤ new.2 ∧
                        (h ++ copies) !! new.2 = h !! old.2)
      (dataset self) (dataset result) ∧
    metadata_elements result = metadata_elements self ∪ metadata_elements other ∧
    filtered_molecules result = filtered_molecules self.
Proof.
  intros old_entry h self other.
  apply (add_empty_is_deep_copy self other h).
  - reflexivity.
  - reflexivity.
  - repeat constructor. by exists old_entry.
Defined.

(** X13 at ethanol arriving in another atom order. *)
Lemma basic_step_fuses_first_isomorphic_witness :
  let existing :=
    Samples.entry "a" Samples.CCO [[1; 2; 3]%float] None Samples.no_constraints in
  let incoming :=
    Samples.entry "b" Samples.OCC [[6; 4; 5]%float] None Samples.no_constraints in
  let h := [existing; incoming] in
  let nd := [("a"%string, 0)] in
  BasicDataset_add_step nd ("b"%string, 1) h
  = match candidates h nd (attributes incoming) with
    | [] => (h, Ok (odict_set "b" 1 nd))
    | (cur, ce, m) :: _ =>
        if decide (initial_molecules ce = [] ∧ initial_molecules incoming ≠ [])
        then (h, Raise IndexError)
        else (<[cur := set_initial_molecules
                         (fuse_geometries (attributes incoming) m
                            (initial_molecules incoming) (initial_molecules ce)) ce]> h,
              Ok nd)
    end.
Proof.
  intros existing incoming h nd.
  apply (basic_step_fuses_first_isomorphic h nd "b" 1 incoming).
  - split.
    + apply NoDup_singleton.
    + repeat constructor. by exists existing.
  - reflexivity.
Defined.

(** X14 at one geometry transferred into an entry that holds another. *)
Lemma transfer_appends_missing_geometries_witness :
  let ce := Samples.entry "a" Samples.CCO [[1; 2; 3]%float] None Samples.no_constraints in
  let h := [ce] in
  let gs := [Samples.geom Samples.CCO [4; 5; 6]%float] in
  let m : AtomMap := λ i, i in
  let out := transfer_geometries Samples.CCO (Some m) gs 0 h in
  (∀ r, r ≠ 0 → out.1 !! r = h !! r) ∧
  (∃ more,
     out.1 !! 0 = Some (set_initial_molecules (initial_molecules ce ++ more) ce) ∧
     length more ≤ length gs ∧
     (∀ g', g' ∈ more →
            ∃ g first, g ∈ gs ∧ head (initial_molecules ce) = Some first ∧
                       g' = remap_to_qcschema Samples.CCO m g (qc_extras first))) ∧
  match out.2 with
  | Ok _ =>
      (∀ g first,
         g ∈ gs → head (initial_molecules ce) = Some first →
         ∃ x e', out.1 !! 0 = Some e' ∧ x ∈ initial_molecules e' ∧
                 (x = remap_to_qcschema Samples.CCO m g (qc_extras first) ∨
                  qcmol_eqb x (remap_to_qcschema Samples.CCO m g (qc_extras first)) = true)) ∧
      ((∀ x, qcmol_eqb x x = true) →
       transfer_geometries Samples.CCO (Some m) gs 0 out.1 = (out.1, Ok ()))
  | Raise e => e = IndexError ∧ initial_molecules ce = [] ∧ gs ≠ [] ∧ out.1 = h
  end.
Proof.
  intros ce h gs m.
  apply (@transfer_appends_missing_geometries Reference.toolkit Samples.CCO m gs 0 h ce).
  reflexivity.
Defined.
